(** * tag-finder: a shallow embedding of [tag-finder.go]

    The development follows the layout of the Go file: the fragment of the
    [strings] package the program calls, the reference parser
    ([parseImageReference]), the registry client ([getBearerToken],
    [parseLinkHeader], [fetchTagsPage], [fetchTagsList],
    [fetchManifestDigest]), the worker pool ([FetchDigests]) as an
    interleaving semantics of its goroutines and channels, and the terminal
    program ([model.Update], [main]).  Definitions come first, theorems
    after them. *)

From Stdlib Require Import ZArith Ascii String List Lia Permutation DecimalString.
From stdpp Require Import base option gmap strings list.

Local Open Scope string_scope.
Local Open Scope Z_scope.

(* ===================================================================== *)
(** * Part I. Definitions                                                 *)
(* ===================================================================== *)

(** ** The [strings] package

    Go strings are byte strings, modelled by [string] (a list of 8-bit
    [ascii]).  Every separator the program passes to [Split]/[SplitN] is a
    single byte, so the separator is an [ascii] here. *)

Module strings.

Fixpoint HasPrefix (s prefix : string) : bool :=
  match prefix with
  | EmptyString => true
  | String p prefix' =>
      match s with
      | EmptyString => false
      | String c s' => if Ascii.eqb c p then HasPrefix s' prefix' else false
      end
  end.

(** [TrimPrefix]: [s] without the leading [prefix], or [s] itself. *)
Fixpoint dropBytes (n : nat) (s : string) : string :=
  match n, s with
  | O, _ => s
  | S n', String _ s' => dropBytes n' s'
  | S _, EmptyString => EmptyString
  end.

Definition TrimPrefix (s prefix : string) : string :=
  if HasPrefix s prefix then dropBytes (String.length prefix) s else s.

(** [Index]: byte offset of the first occurrence of [substr], or -1. *)
Fixpoint Index (s substr : string) : Z :=
  if HasPrefix s substr then 0
  else match s with
       | EmptyString => -1
       | String _ s' => let i := Index s' substr in
                        if i <? 0 then -1 else i + 1
       end.

Definition Contains (s substr : string) : bool := 0 <=? Index s substr.

Definition consHead (c : ascii) (l : list string) : list string :=
  match l with
  | [] => [String c EmptyString]
  | h :: t => String c h :: t
  end.

(** [Split s sep]: all fields of [s] between occurrences of [sep];
    [Split "" sep] is the one-element list holding the empty string. *)
Fixpoint Split (s : string) (sep : ascii) : list string :=
  match s with
  | EmptyString => [EmptyString]
  | String c s' =>
      if Ascii.eqb c sep then EmptyString :: Split s' sep
      else consHead c (Split s' sep)
  end.

(** [SplitN s sep n] for a count [n >= 0]: at most [n] fields, the last
    one being the unsplit remainder; no field at all for [n = 0]. *)
Fixpoint SplitN (s : string) (sep : ascii) (n : nat) {struct s} : list string :=
  match n with
  | O => []
  | S O => [s]
  | S (S _ as n') =>
      match s with
      | EmptyString => [EmptyString]
      | String c s' =>
          if Ascii.eqb c sep then EmptyString :: SplitN s' sep n'
          else consHead c (SplitN s' sep n)
      end
  end.

Fixpoint inCutset (c : ascii) (cutset : string) : bool :=
  match cutset with
  | EmptyString => false
  | String d cutset' => if Ascii.eqb c d then true else inCutset c cutset'
  end.

Fixpoint TrimLeft (s cutset : string) : string :=
  match s with
  | EmptyString => EmptyString
  | String c s' => if inCutset c cutset then TrimLeft s' cutset else s
  end.

Fixpoint TrimRight (s cutset : string) : string :=
  match s with
  | EmptyString => EmptyString
  | String c s' =>
      match TrimRight s' cutset with
      | EmptyString => if inCutset c cutset then EmptyString
                       else String c EmptyString
      | r => String c r
      end
  end.

Definition Trim (s cutset : string) : string :=
  TrimRight (TrimLeft s cutset) cutset.

(** White space as [unicode.IsSpace] has it, in UTF-8.  In one byte: tab,
    line feed, vertical tab, form feed, carriage return and space. *)
Definition asciiSpace : string :=
  String (ascii_of_nat 9) (String (ascii_of_nat 10) (String (ascii_of_nat 11)
    (String (ascii_of_nat 12) (String (ascii_of_nat 13) " ")))).

(** In two bytes: U+0085 and U+00A0. *)
Definition isSpace2 (c1 c2 : ascii) : bool :=
  Ascii.eqb c1 (ascii_of_nat 194)
  && (Ascii.eqb c2 (ascii_of_nat 133) || Ascii.eqb c2 (ascii_of_nat 160)).

(** In three bytes: U+1680, U+2000 to U+200A, U+2028, U+2029, U+202F,
    U+205F and U+3000. *)
Definition isSpace3 (c1 c2 c3 : ascii) : bool :=
  let n1 := nat_of_ascii c1 in
  let n2 := nat_of_ascii c2 in
  let n3 := nat_of_ascii c3 in
  ((n1 =? 225) && (n2 =? 154) && (n3 =? 128)
   || (n1 =? 226) && (n2 =? 128)
      && ((128 <=? n3) && (n3 <=? 138) || (n3 =? 168) || (n3 =? 169) || (n3 =? 175))
   || (n1 =? 226) && (n2 =? 129) && (n3 =? 159)
   || (n1 =? 227) && (n2 =? 128) && (n3 =? 128))%nat.

(** [TrimLeftFunc(s, unicode.IsSpace)]: the leading white space runes go; a
    byte sequence that is not the encoding of one stops the trimming. *)
Fixpoint trimLeftSpace (s : string) : string :=
  match s with
  | EmptyString => EmptyString
  | String c1 s1 =>
      if inCutset c1 asciiSpace then trimLeftSpace s1
      else match s1 with
           | EmptyString => s
           | String c2 s2 =>
               if isSpace2 c1 c2 then trimLeftSpace s2
               else match s2 with
                    | EmptyString => s
                    | String c3 s3 =>
                        if isSpace3 c1 c2 c3 then trimLeftSpace s3 else s
                    end
           end
  end.

(** [s] is white space runes and nothing else. *)
Definition allSpace (s : string) : bool := String.eqb (trimLeftSpace s) EmptyString.

(** [TrimRightFunc(s, unicode.IsSpace)]: the longest end of [s] that is
    white space runes goes. *)
Fixpoint trimRightSpace (s : string) : string :=
  match s with
  | EmptyString => EmptyString
  | String c s' => if allSpace s then EmptyString else String c (trimRightSpace s')
  end.

Definition TrimSpace (s : string) : string := trimRightSpace (trimLeftSpace s).

Fixpoint HasSuffix (s suffix : string) : bool :=
  if String.eqb s suffix then true
  else match s with
       | EmptyString => false
       | String _ s' => HasSuffix s' suffix
       end.

(** [Join] of a list of strings with a separator string. *)
Fixpoint Join (elems : list string) (sep : string) : string :=
  match elems with
  | [] => EmptyString
  | [e] => e
  | e :: rest => e +:+ sep +:+ Join rest sep
  end.

End strings.

(** ** Errors

    Go errors are values built by [fmt.Errorf]; one constructor per format
    string of the program, plus the errors of the libraries it calls. *)

Inductive error : Type :=
  | ErrUnsupportedAuthType (scheme : string)  (* "unsupported auth type: %s" *)
  | ErrNoRealm                                (* "no realm in auth header" *)
  | ErrTokenStatus (status : Z)               (* "token request failed with status %d" *)
  | ErrNoChallenge                            (* "registry returned 401 without WWW-Authenticate header" *)
  | ErrAuthToken (cause : error)              (* "failed to get auth token: %v" *)
  | ErrRegistry (status : Z)                  (* "registry returned %d" *)
  | ErrRegistryTag (status : Z) (tag : string)(* "registry returned %d for tag %s" *)
  | ErrNoDigestHeader (tag : string)          (* "no digest header for tag %s" *)
  | ErrDecode                                 (* an error of encoding/json *)
  | ErrNewRequest (url : string)              (* an error of http.NewRequest *)
  | ErrTransport (msg : string).              (* an error of http.Client.Do/Get *)

(** ** parseImageReference *)

Definition slash : ascii := "/"%char.

(** The three results of the Go function: registry URL, repository and the
    error, which is [None] for Go's [nil]. *)
Definition parseImageReference (image : string) : string * string * option error :=
  let parts := strings.SplitN image slash 2 in
  match parts with
  | [p0] => ("https://registry-1.docker.io", "library/" +:+ p0, None)
  | registry :: repo :: _ =>
      if String.eqb registry "docker.io" then
        let repo := if negb (strings.Contains repo "/") then "library/" +:+ repo
                    else repo in
        ("https://registry-1.docker.io", repo, None)
      else if String.eqb registry "ghcr.io" then ("https://ghcr.io", repo, None)
      else if String.eqb registry "quay.io" then ("https://quay.io", repo, None)
      else ("https://" +:+ registry, repo, None)
  | [] => (EmptyString, EmptyString, None) (* SplitN with n = 2 never yields no field *)
  end.

(** The image argument as [main] prepares it before the program starts. *)
Definition mainImage (arg : string) : string := strings.TrimPrefix arg "docker://".

(** The digest argument as [main] prepares it. *)
Definition mainDigest (arg : string) : string :=
  if negb (strings.HasPrefix arg "sha256:") then "sha256:" +:+ arg else arg.


(** Projections of the triple [parseImageReference] returns. *)
Definition registryURL (r : string * string * option error) : string := r.1.1.
Definition repository (r : string * string * option error) : string := r.1.2.
Definition parseErr (r : string * string * option error) : option error := r.2.

(** The invariant the data model states for a repository: not empty, no
    leading and no trailing slash. *)
Definition repositoryOK (repo : string) : bool :=
  negb (String.eqb repo "") && negb (strings.HasPrefix repo "/")
  && negb (strings.HasSuffix repo "/").

(** The image strings on which the parser establishes that invariant: a
    non-empty name without a slash, or [host/path] with a slash-free host and
    a path that itself is non-empty without leading or trailing slash. *)
Definition wellFormedRef (image : string) : Prop :=
  (strings.Contains image "/" = false /\ image <> "") \/
  (exists host path, image = host +:+ "/" +:+ path /\
                     strings.Contains host "/" = false /\
                     repositoryOK path = true).

(** ** JSON bodies and the two decodings the program performs

    [encoding/json] is a library of the Go distribution; what the program
    relies on is modelled on a syntax tree of the body.  A body that is not
    JSON text at all is [None] in [Body] below. *)

#[local] Set Warnings "-register-all".

Inductive json : Type :=
  | JNull
  | JBool (b : bool)
  | JNum (n : Z)
  | JStr (s : string)
  | JArr (elems : list json)
  | JObj (fields : list (string * json)).

Definition asciiLower (c : ascii) : ascii :=
  let n := nat_of_ascii c in
  if ((65 <=? n) && (n <=? 90))%nat then ascii_of_nat (n + 32) else c.

(** The two runes beyond ASCII that fold to an ASCII letter: the Kelvin sign
    U+212A (to k) and the long s U+017F (to s), in UTF-8. *)
Definition kelvin : string :=
  String (ascii_of_nat 226) (String (ascii_of_nat 132) (String (ascii_of_nat 170) EmptyString)).
Definition smallLongEss : string :=
  String (ascii_of_nat 197) (String (ascii_of_nat 191) EmptyString).

Definition isAscii (c : ascii) : bool := (nat_of_ascii c <? 128)%nat.

(** An object key selects a struct field when it equals the field's JSON
    name under Unicode simple case folding.  The names of the program's
    structs are ASCII: byte by byte of [name], the key holds the same byte
    up to ASCII case, or the Kelvin sign for a k, or the long s for an s;
    any other rune beyond ASCII, or an invalid byte, folds to no ASCII
    letter. *)
Fixpoint keyMatches (key name : string) : bool :=
  match name with
  | EmptyString => String.eqb key EmptyString
  | String n name' =>
      match key with
      | EmptyString => false
      | String c key' =>
          if isAscii c then
            Ascii.eqb (asciiLower c) (asciiLower n) && keyMatches key' name'
          else if Ascii.eqb (asciiLower n) "k" && strings.HasPrefix key kelvin then
            keyMatches (strings.dropBytes 3 key) name'
          else if Ascii.eqb (asciiLower n) "s" && strings.HasPrefix key smallLongEss then
            keyMatches (strings.dropBytes 2 key) name'
          else false
      end
  end.

Definition hasField (name : string) (fields : list (string * json)) : bool :=
  existsb (fun kv => keyMatches kv.1 name) fields.

(** Decoding into a [string] field that currently holds [cur]: a JSON string
    sets it, [null] leaves it, anything else is a type error; a later
    matching key overrides an earlier one. *)
Fixpoint decodeStringField (name : string) (fields : list (string * json))
    (cur : string) : option string :=
  match fields with
  | [] => Some cur
  | (k, v) :: rest =>
      if keyMatches k name then
        match v with
        | JStr s => decodeStringField name rest s
        | JNull => decodeStringField name rest cur
        | _ => None
        end
      else decodeStringField name rest cur
  end.

(** Decoding a JSON array into a [[]string] whose backing array holds
    [old] from the element in turn on: a JSON string sets the element,
    [null] leaves what the backing array holds there (the empty string
    where nothing was written), anything else is a type error. *)
Fixpoint decodeStrings (elems : list json) (old : list string) : option (list string) :=
  match elems with
  | [] => Some []
  | JStr s :: rest => cons s <$> decodeStrings rest (tail old)
  | JNull :: rest => cons (hd EmptyString old) <$> decodeStrings rest (tail old)
  | _ :: _ => None
  end.

(** Decoding into a [[]string] field that currently is [cur], with [stale]
    behind it in its backing array: an array is decoded into the slice that
    is there and cuts it to its own length, the empty array and [null] give
    a slice of their own; a later matching key goes on from the earlier
    one. *)
Fixpoint decodeStringsField (name : string) (fields : list (string * json))
    (cur stale : list string) : option (list string) :=
  match fields with
  | [] => Some cur
  | (k, v) :: rest =>
      if keyMatches k name then
        match v with
        | JArr [] => decodeStringsField name rest [] []
        | JArr elems =>
            match decodeStrings elems (cur ++ stale) with
            | Some l => decodeStringsField name rest l (drop (length elems) (cur ++ stale))
            | None => None
            end
        | JNull => decodeStringsField name rest [] []
        | _ => None
        end
      else decodeStringsField name rest cur stale
  end.

(** [struct { Token string `json:"token"`; AccessToken string `json:"access_token"` }] *)
Definition decodeTokenResp (body : option json) : option (string * string) :=
  match body with
  | Some JNull => Some (EmptyString, EmptyString)
  | Some (JObj fields) =>
      match decodeStringField "token" fields "", decodeStringField "access_token" fields "" with
      | Some t, Some a => Some (t, a)
      | _, _ => None
      end
  | _ => None
  end.

(** [struct { Tags []string `json:"tags"` }] *)
Definition decodeTagsResp (body : option json) : option (list string) :=
  match body with
  | Some JNull => Some []
  | Some (JObj fields) => decodeStringsField "tags" fields [] []
  | _ => None
  end.

(** ** HTTP: requests, responses and the network

    Header maps are keyed by the header names as the source spells them. *)

Record Request : Type := mkRequest {
  Method : string;
  URL : string;
  ReqHeader : gmap string string
}.

Record Response : Type := mkResponse {
  StatusCode : Z;
  Header : gmap string string;
  Body : option json
}.

(** [Header.Get]: the value under a key, the empty string when absent. *)
Definition Header_Get (h : gmap string string) (key : string) : string :=
  default EmptyString (h !! key).

Definition StatusOK : Z := 200.
Definition StatusUnauthorized : Z := 401.

(** The environment of a client: which URLs [http.NewRequest] accepts, and
    what the network answers to a request given all requests sent before it
    (a transport error or a response). *)
Record Network : Type := mkNetwork {
  parsesURL : string -> bool;
  respond : list Request -> Request -> error + Response
}.

(** The answers the [http.Client] of [NewRegistryClient] does not hand to
    its caller: having no [CheckRedirect], it follows a 301, 302, 303, 307
    or 308 that names a [Location], with further requests of its own. *)
Definition isRedirect (status : Z) : bool :=
  (status =? 301) || (status =? 302) || (status =? 303) || (status =? 307)
  || (status =? 308).

Definition followed (resp : Response) : bool :=
  isRedirect (StatusCode resp)
  && negb (String.eqb (Header_Get (Header resp) "Location") EmptyString).

(** A network none of whose answers is a redirect the client follows: what
    the client returns from a call is then the answer to the one request it
    sent. *)
Definition handsOver (net : Network) : Prop :=
  forall log req resp, respond net log req = inr resp -> followed resp = false.

(** ** RegistryClient and the state its methods thread

    [httpClient] is the network above; [tokenMutex] guards [token] and
    disappears in a sequential run. *)

Record RegistryClient : Type := mkRegistryClient {
  workers : Z;
  token : string
}.

Definition NewRegistryClient (workers : Z) : RegistryClient :=
  {| workers := workers; token := EmptyString |}.

Record State : Type := mkState {
  client : RegistryClient;
  sent : list Request   (* every request put on the wire so far, oldest first *)
}.

Definition setToken (t : string) (st : State) : State :=
  {| client := {| workers := workers (client st); token := t |}; sent := sent st |}.

Inductive result (A : Type) : Type :=
  | Ok (a : A)
  | Err (e : error).
Arguments Ok {A} a.
Arguments Err {A} e.

(** A method of the client: state in, a value or an error and the state out. *)
Definition M (A : Type) : Type := State -> result A * State.

Definition ret {A} (a : A) : M A := fun st => (Ok a, st).
Definition fail {A} (e : error) : M A := fun st => (Err e, st).
Definition bind {A B} (c : M A) (k : A -> M B) : M B :=
  fun st => match c st with
            | (Ok a, st') => k a st'
            | (Err e, st') => (Err e, st')
            end.

Notation "x <- c ;; k" := (bind c (fun x => k))
  (at level 100, c at next level, right associativity).

(** [fmt.Errorf("...: %v", err)] around a call. *)
Definition wrapErr {A} (f : error -> error) (c : M A) : M A :=
  fun st => match c st with
            | (Ok a, st') => (Ok a, st')
            | (Err e, st') => (Err (f e), st')
            end.

(** The double quote, as a one-byte string. *)
Definition dquote : string := String (ascii_of_nat 34) EmptyString.

(** The relation [parseLinkHeader] looks for: rel= followed by next in
    double quotes. *)
Definition relNext : string := "rel=" +:+ dquote +:+ "next" +:+ dquote.

(** The loop of [parseLinkHeader] over [parts[1:]]. *)
Fixpoint nextAmong (parts : list string) (urlPart : string) : string :=
  match parts with
  | [] => EmptyString
  | part :: rest =>
      if strings.Contains part relNext then strings.Trim urlPart "<>"
      else nextAmong rest urlPart
  end.

Definition parseLinkHeader (linkHeader : string) : string :=
  let parts := strings.Split linkHeader ";"%char in
  match parts with
  | [] | [_] => EmptyString
  | p0 :: rest =>
      let urlPart := strings.TrimSpace p0 in
      if negb (strings.HasPrefix urlPart "<") || negb (strings.HasSuffix urlPart ">")
      then EmptyString
      else nextAmong rest urlPart
  end.

(** The header of the source's comment and of [TestParseLinkHeader]. *)
Definition exampleLink : string :=
  "</v2/repo/tags/list?n=100&last=tag99>; " +:+ relNext.

(** [s[:n]] *)
Fixpoint takeBytes (n : nat) (s : string) : string :=
  match n, s with
  | S n', String c s' => String c (takeBytes n' s')
  | _, _ => EmptyString
  end.

Definition acceptManifests : string :=
  strings.Join [ "application/vnd.docker.distribution.manifest.v2+json";
                 "application/vnd.docker.distribution.manifest.list.v2+json";
                 "application/vnd.oci.image.manifest.v1+json";
                 "application/vnd.oci.image.index.v1+json" ] ", ".

Definition GETreq (url : string) : Request :=
  {| Method := "GET"; URL := url; ReqHeader := ∅ |}.

(** [req.Header.Set(key, value)] *)
Definition Header_Set (key value : string) (req : Request) : Request :=
  {| Method := Method req; URL := URL req;
     ReqHeader := <[key := value]> (ReqHeader req) |}.

(** The state once [req] has been put on the wire. *)
Definition afterSend (req : Request) (st : State) : State :=
  {| client := client st; sent := sent st ++ [req] |}.

(** "Use cached token if available": bearer authorization from a non-empty
    cached token. *)
Definition attachCached (tok : string) (req : Request) : Request :=
  if negb (String.eqb tok "") then Header_Set "Authorization" ("Bearer " +:+ tok) req
  else req.

(** The retry [fetchTagsPage] sends after a 401. *)
Definition pageRetry (url tok : string) : Request :=
  Header_Set "Authorization" ("Bearer " +:+ tok) (GETreq url).

(** The first request and the retry of [fetchManifestDigest]. *)
Definition manifestRequest (url : string) : Request :=
  Header_Set "Accept" acceptManifests (GETreq url).

Definition manifestRetry (url tok : string) : Request :=
  Header_Set "Authorization" ("Bearer " +:+ tok) (manifestRequest url).

Section Client.

Variable net : Network.

(** [http.NewRequest("GET", url, nil)] *)
Definition NewRequest (url : string) : M Request :=
  if parsesURL net url then ret (GETreq url) else fail (ErrNewRequest url).

(** [rc.httpClient.Do(req)]: one exchange with the network, the answer
    handed to the caller as it is.  This is the client of [NewRegistryClient]
    on every answer but a redirect it follows ([followed] below); the
    statements that count requests or read a status other than 200 are made
    of answers that are handed over. *)
Definition Do (req : Request) : M Response :=
  fun st =>
    match respond net (sent st) req with
    | inl e => (Err e, afterSend req st)
    | inr resp => (Ok resp, afterSend req st)
    end.

(** [rc.httpClient.Get(url)] *)
Definition Get (url : string) : M Response :=
  req <- NewRequest url ;; Do req.

(** The loop over the comma separated parameters of a challenge. *)
Definition challengeParams (parts : list string) : gmap string string :=
  fold_left (fun params part =>
               match strings.SplitN part "="%char 2 with
               | [k; v] => <[k := strings.Trim v dquote]> params
               | _ => params
               end) parts ∅.

Definition tokenURL (params : gmap string string) (realm repository : string) : string :=
  let tokenURL := realm +:+ "?" in
  let tokenURL := match params !! "service" with
                  | Some service => tokenURL +:+ "service=" +:+ service +:+ "&"
                  | None => tokenURL
                  end in
  match params !! "scope" with
  | Some scope => tokenURL +:+ "scope=" +:+ scope
  | None => tokenURL +:+ "scope=repository:" +:+ repository +:+ ":pull"
  end.

(** The challenge parsing of [getBearerToken]: the parameter map and the
    realm, or the error the function returns. *)
Definition parseChallenge (authHeader : string) : result (gmap string string * string) :=
  let parts := strings.Split authHeader " "%char in
  match parts with
  | [] => Err (ErrUnsupportedAuthType EmptyString) (* Split always yields a field *)
  | [p0] => Err (ErrUnsupportedAuthType p0)
  | p0 :: p1 :: _ =>
      if negb (String.eqb p0 "Bearer") then Err (ErrUnsupportedAuthType p0)
      else
        let params := challengeParams (strings.Split p1 ","%char) in
        match params !! "realm" with
        | None => Err ErrNoRealm
        | Some realm => Ok (params, realm)
        end
  end.

Definition getBearerToken (authHeader repository : string) : M string :=
  fun st =>
    if negb (String.eqb (token (client st)) "") then (Ok (token (client st)), st)
    else
      match parseChallenge authHeader with
      | Err e => (Err e, st)
      | Ok (params, realm) =>
          (resp <- Get (tokenURL params realm repository) ;;
           if negb (StatusCode resp =? StatusOK)
           then fail (ErrTokenStatus (StatusCode resp))
           else match decodeTokenResp (Body resp) with
                | None => fail ErrDecode
                | Some (tok, accessToken) =>
                    let token := if String.eqb tok "" then accessToken else tok in
                    fun st' => (Ok token, setToken token st')
                end) st
      end.

(** Reading [rc.token] under the mutex to authorize a request. *)
Definition withCachedToken (req : Request) : M Request :=
  fun st => (Ok (attachCached (token (client st)) req), st).

Definition nextPageURL (url : string) (resp : Response) : string :=
  let linkHeader := Header_Get (Header resp) "Link" in
  if negb (String.eqb linkHeader "") then
    let nextPath := parseLinkHeader linkHeader in
    if negb (String.eqb nextPath "") then
      let idx := strings.Index url "/v2/" in
      let baseURL := if 0 <=? idx then takeBytes (Z.to_nat idx) url else url in
      baseURL +:+ nextPath
    else EmptyString
  else EmptyString.

Definition fetchTagsPage (url repository : string) : M (list string * string) :=
  req <- NewRequest url ;;
  req <- withCachedToken req ;;
  resp <- Do req ;;
  resp <- (if StatusCode resp =? StatusUnauthorized then
             let authHeader := Header_Get (Header resp) "WWW-Authenticate" in
             if String.eqb authHeader "" then fail ErrNoChallenge
             else
               token <- wrapErr ErrAuthToken (getBearerToken authHeader repository) ;;
               req <- NewRequest url ;;
               Do (Header_Set "Authorization" ("Bearer " +:+ token) req)
           else ret resp) ;;
  if negb (StatusCode resp =? StatusOK) then fail (ErrRegistry (StatusCode resp))
  else match decodeTagsResp (Body resp) with
       | None => fail ErrDecode
       | Some tags => ret (tags, nextPageURL url resp)
       end.

(** The loop of [fetchTagsList].  The Go loop runs as long as the registry
    names a next page; [fuel] bounds the number of pages fetched, and [None]
    means the loop is still running when the fuel is used up. *)
Fixpoint fetchTagsLoop (fuel : nat) (repository url : string) (allTags : list string)
    (st : State) : option (result (list string) * State) :=
  if String.eqb url "" then Some (Ok allTags, st)
  else match fuel with
       | O => None
       | S fuel' =>
           match fetchTagsPage url repository st with
           | (Err e, st') => Some (Err e, st')
           | (Ok (tags, nextURL), st') =>
               fetchTagsLoop fuel' repository nextURL (allTags ++ tags) st'
           end
       end.

Definition tagsListURL (registryURL repository : string) : string :=
  registryURL +:+ "/v2/" +:+ repository +:+ "/tags/list?n=1000".

Definition fetchTagsList (fuel : nat) (registryURL repository : string)
    (st : State) : option (result (list string) * State) :=
  fetchTagsLoop fuel repository (tagsListURL registryURL repository) [] st.

Definition manifestURL (registryURL repository tag : string) : string :=
  registryURL +:+ "/v2/" +:+ repository +:+ "/manifests/" +:+ tag.

Definition fetchManifestDigest (registryURL repository tag : string) : M string :=
  let url := manifestURL registryURL repository tag in
  req <- NewRequest url ;;
  let req := Header_Set "Accept" acceptManifests req in
  req <- withCachedToken req ;;
  resp <- Do req ;;
  resp <- (if StatusCode resp =? StatusUnauthorized then
             let authHeader := Header_Get (Header resp) "WWW-Authenticate" in
             if String.eqb authHeader "" then fail ErrNoChallenge
             else
               token <- wrapErr ErrAuthToken (getBearerToken authHeader repository) ;;
               req <- NewRequest url ;;
               let req := Header_Set "Accept" acceptManifests req in
               Do (Header_Set "Authorization" ("Bearer " +:+ token) req)
           else ret resp) ;;
  if negb (StatusCode resp =? StatusOK)
  then fail (ErrRegistryTag (StatusCode resp) tag)
  else
    let digest := Header_Get (Header resp) "Docker-Content-Digest" in
    if String.eqb digest "" then fail (ErrNoDigestHeader tag)
    else ret digest.

End Client.

(** ** FetchDigests: the worker pool as an interleaving semantics

    The goroutines of [FetchDigests] (its own body, the [rc.workers]
    workers, the goroutine that waits on the WaitGroup), the consumer of
    [resultsChan] and the holder of the cancel function take turns; an
    [Action] names who moves.  A move that Go would block on is [None].  A
    channel is its buffer, oldest element first, and its closed flag.  One
    call of [fetchManifestDigest] is one move of a worker. *)

Record TagInfo : Type := mkTagInfo {
  Tag : string;
  Digest : string;
  TagErr : option error   (* the field Err of the Go struct *)
}.

(** [TagInfo{Tag: tag, Digest: digest, Err: err}] from the two results of
    [fetchManifestDigest]. *)
Definition tagInfo (tag : string) (r : result string) : TagInfo :=
  match r with
  | Ok digest => {| Tag := tag; Digest := digest; TagErr := None |}
  | Err e => {| Tag := tag; Digest := EmptyString; TagErr := Some e |}
  end.

(** Where the body of [FetchDigests] stands: in the loop that starts
    workers (at counter [i]), in the loop that sends jobs (with [rest] left
    to send, then [close(jobs)]), about to start the waiting goroutine, or
    returned. *)
Inductive MainPC : Type :=
  | MSpawn (i : Z)
  | MSend (rest : list string)
  | MGoWait
  | MReturned.

(** Where a worker stands: at [range jobs], at the [select] with a tag in
    hand, beyond the [select] on the way to send the result of its tag, or
    returned (after [wg.Done]).  The call of [fetchManifestDigest] that
    follows the [select] is taken as one move with it: a worker beyond the
    [select] stands for one that is fetching or sending, and the statements
    on the pool are made of tags and results, not of the moment at which a
    fetch reaches the wire. *)
Inductive Worker : Type :=
  | WRecv
  | WGot (tag : string)
  | WSend (info : TagInfo)
  | WExited.

(** The goroutine of [wg.Wait(); close(resultsChan)]. *)
Inductive Waiter : Type :=
  | WaitNone
  | WaitBlocked
  | WaitDone.

Record Pool : Type := mkPool {
  pc : MainPC;
  jobs : list string;         (* buffer of the jobs channel *)
  jobsClosed : bool;
  wg : Z;                     (* counter of the WaitGroup *)
  ws : list Worker;
  waiter : Waiter;
  results : list TagInfo;     (* buffer of resultsChan *)
  resultsClosed : bool;
  received : list TagInfo;    (* what the consumer has taken, in order *)
  ctxDone : bool;             (* ctx.Done() is closed *)
  panicked : bool;            (* a send on the closed resultsChan *)
  shared : State              (* the client the workers share, and the wire *)
}.

Definition set_pc (x : MainPC) (p : Pool) : Pool :=
  mkPool x (jobs p) (jobsClosed p) (wg p) (ws p) (waiter p) (results p)
         (resultsClosed p) (received p) (ctxDone p) (panicked p) (shared p).
Definition set_jobs (x : list string) (p : Pool) : Pool :=
  mkPool (pc p) x (jobsClosed p) (wg p) (ws p) (waiter p) (results p)
         (resultsClosed p) (received p) (ctxDone p) (panicked p) (shared p).
Definition set_jobsClosed (x : bool) (p : Pool) : Pool :=
  mkPool (pc p) (jobs p) x (wg p) (ws p) (waiter p) (results p)
         (resultsClosed p) (received p) (ctxDone p) (panicked p) (shared p).
Definition set_wg (x : Z) (p : Pool) : Pool :=
  mkPool (pc p) (jobs p) (jobsClosed p) x (ws p) (waiter p) (results p)
         (resultsClosed p) (received p) (ctxDone p) (panicked p) (shared p).
Definition set_ws (x : list Worker) (p : Pool) : Pool :=
  mkPool (pc p) (jobs p) (jobsClosed p) (wg p) x (waiter p) (results p)
         (resultsClosed p) (received p) (ctxDone p) (panicked p) (shared p).
Definition set_waiter (x : Waiter) (p : Pool) : Pool :=
  mkPool (pc p) (jobs p) (jobsClosed p) (wg p) (ws p) x (results p)
         (resultsClosed p) (received p) (ctxDone p) (panicked p) (shared p).
Definition set_results (x : list TagInfo) (p : Pool) : Pool :=
  mkPool (pc p) (jobs p) (jobsClosed p) (wg p) (ws p) (waiter p) x
         (resultsClosed p) (received p) (ctxDone p) (panicked p) (shared p).
Definition set_resultsClosed (x : bool) (p : Pool) : Pool :=
  mkPool (pc p) (jobs p) (jobsClosed p) (wg p) (ws p) (waiter p) (results p)
         x (received p) (ctxDone p) (panicked p) (shared p).
Definition set_received (x : list TagInfo) (p : Pool) : Pool :=
  mkPool (pc p) (jobs p) (jobsClosed p) (wg p) (ws p) (waiter p) (results p)
         (resultsClosed p) x (ctxDone p) (panicked p) (shared p).
Definition set_ctxDone (x : bool) (p : Pool) : Pool :=
  mkPool (pc p) (jobs p) (jobsClosed p) (wg p) (ws p) (waiter p) (results p)
         (resultsClosed p) (received p) x (panicked p) (shared p).
Definition set_panicked (x : bool) (p : Pool) : Pool :=
  mkPool (pc p) (jobs p) (jobsClosed p) (wg p) (ws p) (waiter p) (results p)
         (resultsClosed p) (received p) (ctxDone p) x (shared p).
Definition set_shared (x : State) (p : Pool) : Pool :=
  mkPool (pc p) (jobs p) (jobsClosed p) (wg p) (ws p) (waiter p) (results p)
         (resultsClosed p) (received p) (ctxDone p) (panicked p) x.

Inductive Action : Type :=
  | AMain                (* the body of FetchDigests *)
  | AWorker (i : nat)    (* worker number i *)
  | AHandoff (i : nat)   (* worker i hands its result to the waiting consumer *)
  | AWaiter              (* the goroutine of wg.Wait and close *)
  | AReceive             (* the consumer takes from the buffer of resultsChan *)
  | ACancel.             (* the cancel function of ctx is called *)

Section FetchDigests.

(** [rc.fetchManifestDigest(registryURL, repository, _)] *)
Variable fetch : string -> M string.
Variable tags : list string.
(** The capacity of [resultsChan], which the caller made. *)
Variable resultsCap : nat.

Definition initPool (st : State) : Pool :=
  {| pc := MSpawn 0; jobs := []; jobsClosed := false; wg := 0; ws := [];
     waiter := WaitNone; results := []; resultsClosed := false; received := [];
     ctxDone := false; panicked := false; shared := st |}.

(** [jobs := make(chan string, len(tags))], the loop starting the workers,
    the loop sending the jobs, [close(jobs)] and the [go] of the waiter. *)
Definition stepMain (p : Pool) : option Pool :=
  match pc p with
  | MSpawn i =>
      if i <? workers (client (shared p))
      then Some (set_pc (MSpawn (i + 1)) (set_ws (ws p ++ [WRecv]) (set_wg (wg p + 1) p)))
      else Some (set_pc (MSend tags) p)
  | MSend (tag :: rest) =>
      if (length (jobs p) <? length tags)%nat
      then Some (set_pc (MSend rest) (set_jobs (jobs p ++ [tag]) p))
      else None
  | MSend [] => Some (set_pc MGoWait (set_jobsClosed true p))
  | MGoWait => Some (set_pc MReturned (set_waiter WaitBlocked p))
  | MReturned => None
  end.

(** [defer wg.Done()] on the way out of a worker. *)
Definition workerExit (i : nat) (p : Pool) : Pool :=
  set_ws (<[i := WExited]> (ws p)) (set_wg (wg p - 1) p).

Definition stepWorker (i : nat) (p : Pool) : option Pool :=
  match ws p !! i with
  | Some WRecv =>
      match jobs p with
      | tag :: rest => Some (set_ws (<[i := WGot tag]> (ws p)) (set_jobs rest p))
      | [] => if jobsClosed p then Some (workerExit i p) else None
      end
  | Some (WGot tag) =>
      if ctxDone p then Some (workerExit i p)
      else
        let '(r, st') := fetch tag (shared p) in
        Some (set_ws (<[i := WSend (tagInfo tag r)]> (ws p)) (set_shared st' p))
  | Some (WSend info) =>
      if resultsClosed p then Some (set_panicked true p)
      else if (length (results p) <? resultsCap)%nat
           then Some (set_ws (<[i := WRecv]> (ws p)) (set_results (results p ++ [info]) p))
           else None
  | Some WExited | None => None
  end.

(** A send that meets the consumer waiting on the empty channel. *)
Definition stepHandoff (i : nat) (p : Pool) : option Pool :=
  match ws p !! i with
  | Some (WSend info) =>
      if resultsClosed p then None
      else match results p with
           | [] => Some (set_ws (<[i := WRecv]> (ws p)) (set_received (received p ++ [info]) p))
           | _ :: _ => None
           end
  | _ => None
  end.

Definition stepWaiter (p : Pool) : option Pool :=
  match waiter p with
  | WaitBlocked =>
      if wg p =? 0 then Some (set_waiter WaitDone (set_resultsClosed true p)) else None
  | _ => None
  end.

Definition stepReceive (p : Pool) : option Pool :=
  match results p with
  | info :: rest => Some (set_received (received p ++ [info]) (set_results rest p))
  | [] => None
  end.

Definition step (a : Action) (p : Pool) : option Pool :=
  match a with
  | AMain => stepMain p
  | AWorker i => stepWorker i p
  | AHandoff i => stepHandoff i p
  | AWaiter => stepWaiter p
  | AReceive => stepReceive p
  | ACancel => Some (set_ctxDone true p)
  end.

(** A schedule is the list of who moves, first move first. *)
Fixpoint run (schedule : list Action) (p : Pool) : option Pool :=
  match schedule with
  | [] => Some p
  | a :: rest => match step a p with
                 | Some p' => run rest p'
                 | None => None
                 end
  end.

End FetchDigests.

Definition isCancel (a : Action) : bool :=
  match a with ACancel => true | _ => false end.

(** A schedule in which the cancel function is never called. *)
Definition noCancel (schedule : list Action) : Prop :=
  Forall (fun a => isCancel a = false) schedule.

(** Everything sent on [resultsChan] so far: taken by the consumer or still
    in the buffer. *)
Definition emitted (p : Pool) : list TagInfo := received p ++ results p.

Definition allExited (p : Pool) : Prop := Forall (fun w => w = WExited) (ws p).

(** The stream is closed and drained. *)
Definition finished (p : Pool) : Prop := resultsClosed p = true /\ results p = [].

(** *** Bookkeeping over a pool state *)

(** The tag a worker has taken from [jobs] and not yet sent a result for. *)
Definition inflightW (w : Worker) : list string :=
  match w with
  | WGot tag => [tag]
  | WSend info => [Tag info]
  | WRecv | WExited => []
  end.

Definition inflight (ws : list Worker) : list string := flat_map inflightW ws.

(** The result a worker is about to send. *)
Definition heldW (w : Worker) : list TagInfo :=
  match w with
  | WSend info => [info]
  | _ => []
  end.

Definition held (ws : list Worker) : list TagInfo := flat_map heldW ws.

Definition aliveW (w : Worker) : nat :=
  match w with
  | WExited => 0
  | _ => 1
  end.

(** The workers that have not returned. *)
Definition alive (ws : list Worker) : nat := sum_list_with aliveW ws.

(** The tags the body of [FetchDigests] has still to put into [jobs]. *)
Definition pending (tags : list string) (pc : MainPC) : list string :=
  match pc with
  | MSpawn _ => tags
  | MSend rest => rest
  | MGoWait | MReturned => []
  end.

(** A bound on the moves still to come: each tag weighs the moves between
    where it is and the consumer, each goroutine the moves it has left. *)
Definition potW (w : Worker) : nat :=
  match w with
  | WRecv => 1
  | WGot _ => 4
  | WSend _ => 3
  | WExited => 0
  end.

Definition potMain (n : Z) (tags : list string) (pc : MainPC) : nat :=
  match pc with
  | MSpawn i => 2 * Z.to_nat (n - i) + 5 * length tags + 4
  | MSend rest => 5 * length rest + 3
  | MGoWait => 2
  | MReturned => 0
  end.

Definition potWaiter (w : Waiter) : nat :=
  match w with
  | WaitBlocked => 1
  | _ => 0
  end.

Definition potential (tags : list string) (p : Pool) : nat :=
  potMain (workers (client (shared p))) tags (pc p) + sum_list_with potW (ws p)
  + 4 * length (jobs p) + length (results p) + potWaiter (waiter p).

Section PoolInvariant.

Variable tags : list string.
(** The worker count of the client, which no move changes. *)
Variable N : Z.
(** A property of the shared client state that every fetch keeps, and a
    property of the results that every fetch then establishes. *)
Variable J : State -> Prop.
Variable Q : TagInfo -> Prop.

(** What holds of every state of a run in which the cancel function is not
    called. *)
Record Inv (p : Pool) : Prop := mkInv {
  inv_workers : workers (client (shared p)) = N;
  inv_J : J (shared p);
  inv_Q : Forall Q (received p ++ results p ++ held (ws p));
  inv_panicked : panicked p = false;
  inv_ctx : ctxDone p = false;
  inv_wg : wg p = Z.of_nat (alive (ws p));
  inv_tags : tags ≡ₚ map Tag (received p ++ results p) ++ inflight (ws p)
                     ++ jobs p ++ pending tags (pc p);
  inv_pc : match pc p with
           | MSpawn i => 0 <= i <= Z.max 0 N /\ Z.of_nat (length (ws p)) = i /\
                         jobs p = [] /\ jobsClosed p = false /\ waiter p = WaitNone
           | MSend _ => Z.of_nat (length (ws p)) = Z.max 0 N /\
                        jobsClosed p = false /\ waiter p = WaitNone
           | MGoWait => Z.of_nat (length (ws p)) = Z.max 0 N /\
                        jobsClosed p = true /\ waiter p = WaitNone
           | MReturned => Z.of_nat (length (ws p)) = Z.max 0 N /\
                          jobsClosed p = true /\ waiter p <> WaitNone
           end;
  inv_exited : (alive (ws p) < length (ws p))%nat -> jobs p = [] /\ jobsClosed p = true;
  inv_closed : resultsClosed p = true <-> waiter p = WaitDone;
  inv_done : waiter p = WaitDone -> wg p = 0
}.

End PoolInvariant.





(** No method of the client changes its worker count. *)
Definition keepsWorkers {A} (c : M A) : Prop :=
  forall st, workers (client (c st).2) = workers (client st).

(** The last path segment of a URL, as the handler of [TestFetchDigests]
    reads the tag. *)
Definition lastSegment (url : string) : string :=
  List.last (strings.Split url "/"%char) EmptyString.

(** The digest map of [TestFetchDigests]; a tag outside it gets no digest
    header here. *)
Definition testDigests (tag : string) : string :=
  if String.eqb tag "tag1" then "sha256:aaaa"
  else if String.eqb tag "tag2" then "sha256:bbbb"
  else if String.eqb tag "tag3" then "sha256:cccc"
  else EmptyString.

(** One interleaving of two workers over three tags, run to the end. *)
Definition sampleSchedule : list Action :=
  [ AMain; AMain; AMain; AMain; AMain; AWorker 0; AWorker 0; AMain; AMain;
    AWorker 1; AWorker 1; AHandoff 1; AWorker 0; AMain; AWorker 1; AWorker 1;
    AWorker 1; AWorker 0; AWorker 1; AWaiter; AReceive; AReceive ].

(** A 200 answer to a page request: it decodes to [tags], and it names a
    next page ([more = true]) or does not. *)
Definition pageAnswer (resp : Response) (tags : list string) (more : bool) : Prop :=
  StatusCode resp = StatusOK /\
  decodeTagsResp (Body resp) = Some tags /\
  if more then parseLinkHeader (Header_Get (Header resp) "Link") <> ""
  else parseLinkHeader (Header_Get (Header resp) "Link") = "".

(** ** The mock servers of the test file

    Each is a [Network]: the handler of the test's [httptest] server, with
    the test's call counter read off the requests sent so far. *)

Definition jsonTags (tags : list string) : option json :=
  Some (JObj [("tags", JArr (JStr <$> tags))]).

Definition jsonToken (field tok : string) : option json :=
  Some (JObj [(field, JStr tok)]).




Definition testTokenURL : string := "http://token.test".

Definition isTokenRequest (req : Request) : bool :=
  strings.HasPrefix (URL req) testTokenURL.

Definition testChallenge : string :=
  "Bearer realm=" +:+ dquote +:+ testTokenURL +:+ dquote +:+ ",service=" +:+ dquote
  +:+ "registry" +:+ dquote +:+ ",scope=" +:+ dquote +:+ "repository:test:pull" +:+ dquote.

(** The registry calls among the requests sent so far. *)
Definition registryCalls (log : list Request) : nat :=
  length (filter (fun req => isTokenRequest req = false) log).

(** The two servers of the [AuthRetry] tests in one network: the token
    server hands out [tok]; the registry answers its first call with 401 and
    a challenge and every later call with [answer]. *)
Definition authRetryNet (tok : string) (answer : Response) : Network :=
  {| parsesURL := fun _ => true;
     respond := fun log req =>
       if isTokenRequest req
       then inr {| StatusCode := 200; Header := ∅; Body := jsonToken "token" tok |}
       else match registryCalls log with
            | 0%nat => inr {| StatusCode := 401;
                              Header := {[ "WWW-Authenticate" := testChallenge ]};
                              Body := None |}
            | _ => inr answer
            end |}.

(** A token endpoint that answers 200 with the empty JSON object. *)
Definition emptyTokenNet : Network :=
  {| parsesURL := fun _ => true;
     respond := fun _ _ => inr {| StatusCode := 200; Header := ∅; Body := Some (JObj []) |} |}.

(** A registry in the style of [TestFetchDigests]: every manifest request is
    answered 200, with the digest [digestOf tag] in the header unless that
    digest is empty; [tagOf] reads the tag off the request URL. *)
Definition digestRegistry (tagOf : string -> string) (digestOf : string -> string) : Network :=
  {| parsesURL := fun _ => true;
     respond := fun _ req =>
       let digest := digestOf (tagOf (URL req)) in
       inr {| StatusCode := 200;
              Header := if String.eqb digest "" then ∅
                        else {[ "Docker-Content-Digest" := digest ]};
              Body := None |} |}.

(** ** The terminal program: [model], [Update] and [main]

    The Bubble Tea runtime is a library: it delivers messages to [Update]
    until a command is [tea.Quit], and [p.Run()] then returns the last
    model and an error of its own, if any.  The spinner and the progress
    bar are left out of the model. *)

Module tui.

Inductive Msg : Type :=
  | KeyMsg (key : string)                                   (* tea.KeyMsg, by its String() *)
  | tagsMsg (tags : list string) (err : option error)
  | checkMsg (tag digest : string) (err : option error)
  | TickMsg                                                 (* spinner.TickMsg *)
  | otherMsg.

Inductive Cmd : Type :=
  | nilCmd
  | Quit
  | startWorkerPool
  | waitForNextResult
  | spinnerCmd.

Record model : Type := mkModel {
  image : string;
  targetDigest : string;
  tags : list string;
  matchingTags : list string;
  current : Z;
  total : Z;
  done : bool;
  err : option error;
  hasResultsChan : bool;   (* resultsChan is not nil *)
  workers : Z;
  cancelled : bool         (* cancel() has been called on ctx *)
}.

Definition initialModel (image digest : string) (workers : Z) : model :=
  {| image := image; targetDigest := digest; tags := []; matchingTags := [];
     current := 0; total := 0; done := false; err := None;
     hasResultsChan := false; workers := workers; cancelled := false |}.

Definition Update (m : model) (msg : Msg) : model * Cmd :=
  match msg with
  | KeyMsg key =>
      if String.eqb key "ctrl+c" || String.eqb key "q" then
        (mkModel (image m) (targetDigest m) (tags m) (matchingTags m) (current m)
           (total m) (done m) (err m) (hasResultsChan m) (workers m) true, Quit)
      else (m, nilCmd)
  | tagsMsg msgTags (Some e) =>
      (mkModel (image m) (targetDigest m) (tags m) (matchingTags m) (current m)
         (total m) true (Some e) (hasResultsChan m) (workers m) (cancelled m), Quit)
  | tagsMsg msgTags None =>
      let total := Z.of_nat (length msgTags) in
      if 0 <? total then
        (mkModel (image m) (targetDigest m) msgTags (matchingTags m) (current m)
           total (done m) (err m) true (workers m) (cancelled m), startWorkerPool)
      else
        (mkModel (image m) (targetDigest m) msgTags (matchingTags m) (current m)
           total true (err m) (hasResultsChan m) (workers m) (cancelled m), Quit)
  | checkMsg tag digest msgErr =>
      let matching :=
        match msgErr with
        | None => if String.eqb digest (targetDigest m)
                  then (matchingTags m ++ [tag])%list
                  else matchingTags m
        | Some _ => matchingTags m
        end in
      let current := current m + 1 in
      if total m <=? current then
        (mkModel (image m) (targetDigest m) (tags m) matching current
           (total m) true (err m) (hasResultsChan m) (workers m) (cancelled m), Quit)
      else
        (mkModel (image m) (targetDigest m) (tags m) matching current
           (total m) (done m) (err m) (hasResultsChan m) (workers m) (cancelled m),
         waitForNextResult)
  | TickMsg | otherMsg => (m, spinnerCmd)
  end.

(** The runtime's loop: messages go to [Update] until it answers [Quit]. *)
Fixpoint eventLoop (m : model) (msgs : list Msg) : model :=
  match msgs with
  | [] => m
  | msg :: rest =>
      match Update m msg with
      | (m', Quit) => m'
      | (m', _) => eventLoop m' rest
      end
  end.



End tui.

(** ** Further definitions: what the rest of the program does *)

(** A registry that serves [pages] in turn and names a next page on each:
    the request number [k] on the wire, whatever it is, is answered with the
    [k]-th element, a 200 answer that decodes to its tags. *)
Definition servesNext (net : Network) (pages : list (Response * list string)) : Prop :=
  forall k resp tags,
    pages !! k = Some (resp, tags) ->
    (forall log req, length log = k -> respond net log req = inr resp) /\
    pageAnswer resp tags true.

(** All tags of a list of pages, in page order. *)
Definition allTagsOf (pages : list (Response * list string)) : list string :=
  concat (map snd pages).

(** A registry that answers every request with one tag and a next link. *)
Definition endlessRegistry : Network :=
  {| parsesURL := fun _ => true;
     respond := fun _ _ =>
       inr {| StatusCode := 200;
              Header := {[ "Link" := "</v2/repo/tags/list?n=1&last=again>; " +:+ relNext ]};
              Body := jsonTags ["again"] |} |}.

(** A registry that serves one page with a next link and answers 500 from
    then on. *)
Definition brokenRegistry : Network :=
  {| parsesURL := fun _ => true;
     respond := fun log _ =>
       match log with
       | [] => inr {| StatusCode := 200;
                      Header := {[ "Link" := "</v2/repo/tags/list?n=2&last=b>; " +:+ relNext ]};
                      Body := jsonTags ["a"; "b"] |}
       | _ :: _ => inr {| StatusCode := 500; Header := ∅; Body := None |}
       end |}.



(** The client [startWorkerPool] makes for the pool. *)
Definition poolClient (workers : Z) (log : list Request) : State :=
  {| client := NewRegistryClient workers; sent := log |}.

(** *** The pool when the cancel function may be called

    What holds of every state of every run, cancelled or not: a tag that a
    worker drops at the [select] is gone, so the tags in the pool are a
    sub-multiset of the input. *)
Record InvC (tags : list string) (N : Z) (p : Pool) : Prop := mkInvC {
  invc_workers : workers (client (shared p)) = N;
  invc_panicked : panicked p = false;
  invc_wg : wg p = Z.of_nat (alive (ws p));
  invc_tags : (map Tag (received p ++ results p) ++ inflight (ws p)
                 ++ jobs p ++ pending tags (pc p))%list ⊆+ tags;
  invc_pc : match pc p with
            | MSpawn i => 0 <= i <= Z.max 0 N /\ Z.of_nat (length (ws p)) = i /\
                          jobs p = [] /\ jobsClosed p = false /\ waiter p = WaitNone
            | MSend _ => Z.of_nat (length (ws p)) = Z.max 0 N /\
                         jobsClosed p = false /\ waiter p = WaitNone
            | MGoWait => Z.of_nat (length (ws p)) = Z.max 0 N /\
                         jobsClosed p = true /\ waiter p = WaitNone
            | MReturned => Z.of_nat (length (ws p)) = Z.max 0 N /\
                           jobsClosed p = true /\ waiter p <> WaitNone
            end;
  invc_closed : resultsClosed p = true <-> waiter p = WaitDone;
  invc_done : waiter p = WaitDone -> wg p = 0
}.

(** An interleaving of two workers over three tags in which the cancel
    function is called after the first result: each worker then drops the
    tag it takes from the queue and returns. *)
Definition cancelledSchedule : list Action :=
  [ AMain; AMain; AMain; AMain; AMain; AMain; AMain; AMain;
    AWorker 0; AWorker 0; AHandoff 0; AWorker 1; ACancel;
    AWorker 1; AWorker 0; AWorker 0; AWaiter ].

(** ** Headers as a registry writes them *)

(** The link header of a next page at [path]. *)
Definition nextLink (path : string) : string := "<" +:+ path +:+ ">; " +:+ relNext.

(** A challenge with realm, service and scope, and one with a realm only. *)
Definition bearerChallenge (realm service scope : string) : string :=
  "Bearer realm=" +:+ dquote +:+ realm +:+ dquote
  +:+ ",service=" +:+ dquote +:+ service +:+ dquote
  +:+ ",scope=" +:+ dquote +:+ scope +:+ dquote.

Definition realmChallenge (realm : string) : string :=
  "Bearer realm=" +:+ dquote +:+ realm +:+ dquote.

(** A parameter value that the splitting of a challenge leaves whole: no
    space, no comma, no double quote. *)
Definition plainValue (s : string) : Prop :=
  strings.Contains s " " = false /\ strings.Contains s "," = false /\
  strings.Contains s dquote = false.

(** No byte of [s] is in [cutset]: what [Trim] leaves alone. *)
Fixpoint clean (cutset s : string) : bool :=
  match s with
  | EmptyString => true
  | String c s' => negb (strings.inCutset c cutset) && clean cutset s'
  end.

(** One parameter of a challenge: key, equals sign, quoted value. *)
Definition challengeField (k v : string) : string :=
  k +:+ String "=" (dquote +:+ v +:+ dquote).

(** ** The command that lists the tags

    [fetchTags]: the reference is parsed, a client of its own lists the tags,
    and the outcome is wrapped in a [tagsMsg]; [None] while the listing is
    still running. *)
Definition fetchTags (net : Network) (fuel : nat) (image : string) (workers : Z)
    : option tui.Msg :=
  let r := parseImageReference image in
  match parseErr r with
  | Some e => Some (tui.tagsMsg [] (Some e))
  | None =>
      match fetchTagsList net fuel (registryURL r) (repository r)
              {| client := NewRegistryClient workers; sent := [] |} with
      | None => None
      | Some (Err e, _) => Some (tui.tagsMsg [] (Some e))
      | Some (Ok tags, _) => Some (tui.tagsMsg tags None)
      end
  end.
(* ===================================================================== *)
(** * Part II. Theorems                                                   *)
(* ===================================================================== *)

(** ** Facts about the [strings] fragment *)

Section StringFacts.

Lemma app_nil s : "" +:+ s = s.
Proof. reflexivity. Qed.

Lemma app_cons c s t : String c s +:+ t = String c (s +:+ t).
Proof. reflexivity. Qed.

Lemma Index_unfold s sub :
  strings.Index s sub =
  if strings.HasPrefix s sub then 0
  else match s with
       | EmptyString => -1
       | String _ s' => if strings.Index s' sub <? 0 then -1
                        else strings.Index s' sub + 1
       end.
Proof. destruct s; reflexivity. Qed.

Lemma Index_ge_m1 s sub : -1 <= strings.Index s sub.
Proof.
  induction s as [|c s IH]; rewrite Index_unfold;
    destruct (strings.HasPrefix _ sub); try lia.
  destruct (Z.ltb_spec (strings.Index s sub) 0); lia.
Qed.

Lemma HasPrefix_empty s : strings.HasPrefix s "" = true.
Proof. destruct s; reflexivity. Qed.

(** On a single-byte needle [Contains] inspects the head, then the tail. *)
Lemma Contains_cons c s d :
  strings.Contains (String c s) (String d "") =
  Ascii.eqb c d || strings.Contains s (String d "").
Proof.
  unfold strings.Contains. rewrite (Index_unfold (String c s)).
  cbn [strings.HasPrefix].
  destruct (Ascii.eqb c d); [rewrite HasPrefix_empty; reflexivity|]. cbn [orb].
  pose proof (Index_ge_m1 s (String d "")).
  destruct (Z.ltb_spec (strings.Index s (String d "")) 0);
    destruct (Z.leb_spec 0 (strings.Index s (String d ""))); try lia;
    try reflexivity.
Qed.

(** [SplitN _ sep 2] cuts at the first separator byte. *)
Lemma SplitN2_no_sep s sep :
  strings.Contains s (String sep "") = false -> strings.SplitN s sep 2 = [s].
Proof.
  induction s as [|c s IH]; [reflexivity|].
  rewrite Contains_cons. intros [Hc Hs]%orb_false_iff.
  change (strings.SplitN (String c s) sep 2)
    with (if Ascii.eqb c sep then "" :: strings.SplitN s sep 1
          else strings.consHead c (strings.SplitN s sep 2)).
  rewrite Hc, (IH Hs). reflexivity.
Qed.

Lemma SplitN2_cut host path sep :
  strings.Contains host (String sep "") = false ->
  strings.SplitN (host +:+ String sep path) sep 2 = [host; path].
Proof.
  induction host as [|c host IH]; intros Hh.
  - simpl. rewrite Ascii.eqb_refl. destruct path; reflexivity.
  - rewrite Contains_cons in Hh. apply orb_false_iff in Hh as [Hc Hs].
    change (strings.SplitN (String c host +:+ String sep path) sep 2)
      with (if Ascii.eqb c sep then "" :: strings.SplitN (host +:+ String sep path) sep 1
            else strings.consHead c (strings.SplitN (host +:+ String sep path) sep 2)).
    rewrite Hc, (IH Hs). reflexivity.
Qed.

(** Every string either has no separator byte or splits at its first one. *)
Lemma SplitN2_cases s sep :
  (strings.Contains s (String sep "") = false /\ strings.SplitN s sep 2 = [s]) \/
  (exists host path, s = host +:+ String sep path /\
                     strings.Contains host (String sep "") = false /\
                     strings.SplitN s sep 2 = [host; path]).
Proof.
  induction s as [|c s IH].
  - left. split; reflexivity.
  - destruct (Ascii.eqb c sep) eqn:Hc.
    + right. exists "", s. apply Ascii.eqb_eq in Hc. subst c.
      split; [reflexivity|]. split; [reflexivity|].
      simpl. rewrite Ascii.eqb_refl. destruct s; reflexivity.
    + destruct IH as [[Hn Hs]|(host & path & -> & Hh & Hs)].
      * left. rewrite Contains_cons, Hc, Hn. split; [reflexivity|].
        apply SplitN2_no_sep. rewrite Contains_cons, Hc, Hn. reflexivity.
      * right. exists (String c host), path. split; [reflexivity|].
        rewrite Contains_cons, Hc, Hh. split; [reflexivity|].
        apply (SplitN2_cut (String c host)). rewrite Contains_cons, Hc, Hh. reflexivity.
Qed.

Lemma SplitN2_nonempty s sep : strings.SplitN s sep 2 <> [].
Proof.
  destruct (SplitN2_cases s sep) as [[_ ->]|(? & ? & _ & _ & ->)]; discriminate.
Qed.

Lemma Contains_app_sep host path sep :
  strings.Contains (host +:+ String sep path) (String sep "") = true.
Proof.
  induction host as [|c host IH]; rewrite ?app_nil, ?app_cons, Contains_cons.
  - rewrite Ascii.eqb_refl. reflexivity.
  - rewrite IH. apply orb_true_r.
Qed.

(** The decomposition at the first separator byte is unique. *)
Lemma cut_unique sep h1 p1 h2 p2 :
  strings.Contains h1 (String sep "") = false ->
  strings.Contains h2 (String sep "") = false ->
  h1 +:+ String sep p1 = h2 +:+ String sep p2 -> h1 = h2 /\ p1 = p2.
Proof.
  intros H1 H2 E. pose proof (SplitN2_cut h1 p1 sep H1) as S1.
  rewrite E, (SplitN2_cut h2 p2 sep H2) in S1. by inversion S1.
Qed.

Lemma HasSuffix1_cons c s d :
  strings.HasSuffix (String c s) (String d "") =
  match s with
  | EmptyString => Ascii.eqb c d
  | String _ _ => strings.HasSuffix s (String d "")
  end.
Proof.
  cbn [strings.HasSuffix]. unfold String.eqb at 1; fold String.eqb.
  destruct (Ascii.eqb c d) eqn:Hc; destruct s as [|e s]; reflexivity.
Qed.

Lemma HasSuffix1_Contains s d :
  strings.HasSuffix s (String d "") = true ->
  strings.Contains s (String d "") = true.
Proof.
  induction s as [|c s IH]; [discriminate|].
  rewrite HasSuffix1_cons, Contains_cons. destruct s as [|e s].
  - intros ->. reflexivity.
  - intros H. rewrite (IH H). apply orb_true_r.
Qed.

Lemma HasSuffix1_app p s d :
  s <> "" ->
  strings.HasSuffix (p +:+ s) (String d "") = strings.HasSuffix s (String d "").
Proof.
  intros Hs. induction p as [|c p IH]; [reflexivity|].
  rewrite app_cons, HasSuffix1_cons, IH.
  destruct (p +:+ s) eqn:E; [|reflexivity].
  destruct p; [rewrite app_nil in E; congruence|discriminate].
Qed.

Lemma HasPrefix1_Contains s d :
  strings.HasPrefix s (String d "") = true ->
  strings.Contains s (String d "") = true.
Proof.
  destruct s as [|c s]; [discriminate|]. rewrite Contains_cons.
  cbn [strings.HasPrefix]. destruct (Ascii.eqb c d); [reflexivity|discriminate].
Qed.

End StringFacts.

(** ** The reference parser *)

Section ReferenceParser.

(** A repository without any slash meets the invariant once it is not empty,
    and so does its [library/] form. *)
Lemma repositoryOK_slash_free path :
  strings.Contains path "/" = false ->
  repositoryOK path = negb (String.eqb path "") /\
  repositoryOK ("library/" +:+ path) = negb (String.eqb path "").
Proof.
  intros Hp. unfold repositoryOK.
  assert (Hpre : strings.HasPrefix path "/" = false).
  { destruct (strings.HasPrefix path "/") eqn:E; [|reflexivity].
    apply HasPrefix1_Contains in E. congruence. }
  assert (Hsuf : strings.HasSuffix path "/" = false).
  { destruct (strings.HasSuffix path "/") eqn:E; [|reflexivity].
    apply HasSuffix1_Contains in E. congruence. }
  rewrite Hpre, Hsuf. split; [by rewrite !andb_true_r|].
  destruct path as [|c path]; [reflexivity|].
  rewrite (HasSuffix1_app "library/" (String c path)) by discriminate.
  rewrite Hsuf. reflexivity.
Qed.

Lemma parse_no_slash image :
  strings.Contains image "/" = false ->
  parseImageReference image
  = ("https://registry-1.docker.io", "library/" +:+ image, None).
Proof.
  intros H. unfold parseImageReference.
  rewrite (SplitN2_no_sep image slash H). reflexivity.
Qed.

(** What the parser returns as repository on [host/path]. *)
Lemma parse_cut_repository host path :
  strings.Contains host "/" = false ->
  repository (parseImageReference (host +:+ "/" +:+ path)) =
  if String.eqb host "docker.io" && negb (strings.Contains path "/")
  then "library/" +:+ path else path.
Proof.
  intros H. unfold parseImageReference.
  change (host +:+ "/" +:+ path) with (host +:+ String slash path).
  rewrite (SplitN2_cut host path slash H).
  destruct (String.eqb host "docker.io");
    [destruct (strings.Contains path "/"); reflexivity|].
  destruct (String.eqb host "ghcr.io"); [reflexivity|].
  destruct (String.eqb host "quay.io"); reflexivity.
Qed.

Lemma repositoryOK_cut host path :
  strings.Contains host "/" = false ->
  repositoryOK (repository (parseImageReference (host +:+ "/" +:+ path)))
  = repositoryOK path.
Proof.
  intros H. rewrite parse_cut_repository by done.
  destruct (String.eqb host "docker.io"); [|reflexivity].
  destruct (strings.Contains path "/") eqn:Hp; [reflexivity|].
  cbn [andb negb]. destruct (repositoryOK_slash_free path Hp) as [-> ->]. reflexivity.
Qed.

(** C3, as stated, fails: a reference that ends right after its first slash
    gives the empty repository, a doubled slash a leading one, and the empty
    image or [docker.io/] a trailing one. *)
Lemma C3_repository_invariant_fails :
  repository (parseImageReference "ghcr.io/") = "" /\
  repository (parseImageReference "example.com//app") = "/app" /\
  repository (parseImageReference "") = "library/" /\
  repository (parseImageReference "docker.io/") = "library/" /\
  ~ (forall image, repositoryOK (repository (parseImageReference image)) = true).
Proof.
  repeat split; try reflexivity.
  intros H. specialize (H "ghcr.io/"). discriminate H.
Qed.

(** C3 (amended): the repository [parseImageReference] returns is non-empty
    with no leading and no trailing slash exactly when the image is a
    non-empty name without a slash, or [host/path] cut at its first slash
    with a path that is itself non-empty without leading or trailing slash. *)
Theorem C3_repository_invariant image :
  repositoryOK (repository (parseImageReference image)) = true <->
  wellFormedRef image.
Proof.
  unfold wellFormedRef.
  destruct (SplitN2_cases image slash) as [[Hn _]|(host & path & -> & Hh & _)].
  - rewrite parse_no_slash by exact Hn. unfold repository; cbn [fst snd].
    destruct (repositoryOK_slash_free image Hn) as [_ ->].
    split.
    + intros H. left. split; [exact Hn|]. intros ->. discriminate H.
    + intros [[_ Hne]|(h & p & -> & _ & _)].
      * destruct image; [congruence|reflexivity].
      * change (h +:+ "/" +:+ p) with (h +:+ String slash p) in Hn.
        unfold slash in Hn. rewrite Contains_app_sep in Hn. discriminate.
  - change (host +:+ String slash path) with (host +:+ "/" +:+ path).
    rewrite repositoryOK_cut by exact Hh. split.
    + intros H. right. by exists host, path.
    + intros [[Hn _]|(h & p & E & Hh' & Hp)].
      * change (host +:+ "/" +:+ path) with (host +:+ String slash path) in Hn.
        unfold slash in Hn. rewrite Contains_app_sep in Hn. discriminate.
      * apply (cut_unique slash) in E as [-> ->]; done.
Qed.

Lemma C3_repository_invariant_witness :
  repositoryOK (repository (parseImageReference "ghcr.io/owner/repo")) = true /\
  ~ wellFormedRef "ghcr.io/".
Proof.
  split.
  - apply (proj2 (C3_repository_invariant "ghcr.io/owner/repo")).
    right. by exists "ghcr.io", "owner/repo".
  - intros H. apply (proj2 (C3_repository_invariant "ghcr.io/")) in H. discriminate H.
Defined.

(** C5: [parseImageReference] returns the nil error on every input. *)
Theorem C5_parse_never_errors image : parseErr (parseImageReference image) = None.
Proof.
  unfold parseImageReference.
  destruct (strings.SplitN image slash 2) as [|registry [|repo rest]];
    try reflexivity.
  destruct (String.eqb registry "docker.io"); [reflexivity|].
  destruct (String.eqb registry "ghcr.io"); [reflexivity|].
  destruct (String.eqb registry "quay.io"); reflexivity.
Qed.

Lemma TrimPrefix_app prefix s : strings.TrimPrefix (prefix +:+ s) prefix = s.
Proof.
  unfold strings.TrimPrefix.
  assert (H : strings.HasPrefix (prefix +:+ s) prefix = true).
  { induction prefix as [|c p IH]; [apply HasPrefix_empty|].
    rewrite app_cons. cbn [strings.HasPrefix]. rewrite Ascii.eqb_refl. exact IH. }
  rewrite H. clear H. induction prefix as [|c p IH]; [reflexivity|exact IH].
Qed.

Lemma TrimPrefix_none s prefix :
  strings.HasPrefix s prefix = false -> strings.TrimPrefix s prefix = s.
Proof. unfold strings.TrimPrefix. intros ->. reflexivity. Qed.

(** C10: [main] strips one leading [docker://], so the argument
    [docker://s] is resolved as the parser resolves [s] (and, when [s] has
    no such prefix itself, as the argument [s] is resolved); only one prefix
    is stripped; and the parser alone reads [docker://s] as the generic
    registry host [docker:] with repository [/s]. *)
Theorem C10_docker_prefix_stripped s :
  parseImageReference (mainImage ("docker://" +:+ s)) = parseImageReference s /\
  (strings.HasPrefix s "docker://" = false ->
   parseImageReference (mainImage ("docker://" +:+ s))
   = parseImageReference (mainImage s)) /\
  mainImage ("docker://docker://" +:+ s) = "docker://" +:+ s /\
  parseImageReference ("docker://" +:+ s) = ("https://docker:", "/" +:+ s, None).
Proof.
  unfold mainImage. rewrite (TrimPrefix_app "docker://" s).
  split; [reflexivity|]. split.
  { intros H. rewrite TrimPrefix_none by exact H. reflexivity. }
  split; [exact (TrimPrefix_app "docker://" ("docker://" +:+ s))|].
  unfold parseImageReference.
  change ("docker://" +:+ s) with ("docker:" +:+ String slash ("/" +:+ s)).
  rewrite SplitN2_cut by reflexivity. reflexivity.
Qed.

Lemma C10_docker_prefix_stripped_witness :
  parseImageReference (mainImage "docker://nginx") = parseImageReference "nginx" /\
  parseImageReference (mainImage "docker://nginx")
  = parseImageReference (mainImage "nginx").
Proof.
  destruct (C10_docker_prefix_stripped "nginx") as (H1 & H2 & _).
  split; [exact H1|]. apply H2. reflexivity.
Defined.

End ReferenceParser.

(** ** Substrings, fields and [parseLinkHeader] *)

Section LinkHeader.

Lemma append_assoc (a b c : string) : (a +:+ b) +:+ c = a +:+ b +:+ c.
Proof.
  induction a as [|x a IH]; [reflexivity|].
  rewrite !app_cons, IH. reflexivity.
Qed.

Lemma HasPrefix_app p s : strings.HasPrefix (p +:+ s) p = true.
Proof.
  induction p as [|c p IH]; [apply HasPrefix_empty|].
  rewrite app_cons. cbn [strings.HasPrefix]. rewrite Ascii.eqb_refl. exact IH.
Qed.

Lemma HasPrefix_split s p : strings.HasPrefix s p = true -> exists b, s = p +:+ b.
Proof.
  revert s. induction p as [|c p IH]; intros s H.
  - exists s. reflexivity.
  - destruct s as [|d s]; [discriminate|]. cbn [strings.HasPrefix] in H.
    destruct (Ascii.eqb d c) eqn:E; [|discriminate].
    apply Ascii.eqb_eq in E. subst d. destruct (IH s H) as [b ->].
    exists b. reflexivity.
Qed.

(** [Contains] holds exactly of the strings with the needle in the middle. *)
Lemma Contains_iff s sub :
  strings.Contains s sub = true <-> exists a b, s = a +:+ sub +:+ b.
Proof.
  unfold strings.Contains. split.
  - induction s as [|c s IH]; rewrite Index_unfold;
      destruct (strings.HasPrefix _ sub) eqn:Hp.
    + intros _. apply HasPrefix_split in Hp as [b ->]. by exists "", b.
    + intros H. lia.
    + intros _. apply HasPrefix_split in Hp as [b ->]. by exists "", b.
    + destruct (Z.ltb_spec (strings.Index s sub) 0) as [Hlt|Hge]; [lia|].
      intros _. destruct IH as (a & b & ->); [lia|].
      by exists (String c a), b.
  - intros (a & b & ->). induction a as [|c a IH].
    + rewrite app_nil, Index_unfold, HasPrefix_app. reflexivity.
    + rewrite app_cons, Index_unfold.
      destruct (strings.HasPrefix _ sub); [reflexivity|].
      destruct (Z.ltb_spec (strings.Index (a +:+ sub +:+ b) sub) 0); lia.
Qed.

(** [Split] always yields a first field, and that field starts the string. *)
Lemma Split_head s sep :
  exists x t b, strings.Split s sep = x :: t /\ s = x +:+ b.
Proof.
  induction s as [|c s IH].
  - by exists "", [], "".
  - cbn [strings.Split]. destruct (Ascii.eqb c sep).
    + by exists "", (strings.Split s sep), (String c s).
    + destruct IH as (x & t & b & -> & ->).
      by exists (String c x), t, b.
Qed.

(** Every field of [Split] is a contiguous piece of the string. *)
Lemma Split_field_substring s sep part :
  In part (strings.Split s sep) -> exists a b, s = a +:+ part +:+ b.
Proof.
  revert part. induction s as [|c s IH]; intros part.
  - intros [<-|[]]. by exists "", "".
  - cbn [strings.Split]. destruct (Ascii.eqb c sep).
    + intros [<-|Hin].
      * by exists "", (String c s).
      * destruct (IH _ Hin) as (a & b & ->). by exists (String c a), b.
    + destruct (Split_head s sep) as (x & t & b & E & Hs). rewrite E.
      intros [<-|Hin].
      * exists "", b. rewrite Hs. reflexivity.
      * destruct (IH part) as (a & b' & ->); [rewrite E; by right|].
        by exists (String c a), b'.
Qed.

Lemma Contains_field s sep part sub :
  In part (strings.Split s sep) ->
  strings.Contains part sub = true -> strings.Contains s sub = true.
Proof.
  intros Hin (a' & b' & ->)%Contains_iff.
  destruct (Split_field_substring s sep _ Hin) as (a & b & ->).
  apply Contains_iff. exists (a +:+ a'), (b' +:+ b).
  rewrite !append_assoc. reflexivity.
Qed.

Lemma nextAmong_none parts urlPart :
  (forall part, In part parts -> strings.Contains part relNext = false) ->
  nextAmong parts urlPart = "".
Proof.
  induction parts as [|p parts IH]; intros H; [reflexivity|].
  cbn [nextAmong]. rewrite (H p) by (by left). apply IH.
  intros part Hin. apply H. by right.
Qed.

(** C8: on the example header [parseLinkHeader] returns the path between the
    angle brackets, and on every header in which rel= followed by a quoted
    next does not occur it returns the empty string. *)
Theorem C8_parseLinkHeader :
  parseLinkHeader exampleLink = "/v2/repo/tags/list?n=100&last=tag99" /\
  forall linkHeader, strings.Contains linkHeader relNext = false ->
                     parseLinkHeader linkHeader = "".
Proof.
  split; [reflexivity|].
  intros h Hh. unfold parseLinkHeader.
  destruct (strings.Split h ";") as [|p0 [|p1 rest]] eqn:E; try reflexivity.
  destruct (negb _ || negb _); [reflexivity|].
  apply nextAmong_none. intros part Hin.
  destruct (strings.Contains part relNext) eqn:Hc; [|reflexivity].
  rewrite (Contains_field h ";" part relNext) in Hh; [discriminate| |exact Hc].
  rewrite E. by right.
Qed.

Lemma C8_parseLinkHeader_witness :
  parseLinkHeader "</v2/repo/tags/list?page=2>; rel=prev" = "".
Proof.
  apply (proj2 C8_parseLinkHeader). reflexivity.
Defined.

(** The remaining rows of [TestParseLinkHeader]. *)
Example parseLinkHeader_test_table :
  parseLinkHeader ("</v2/repo/tags/list?n=100&last=tag99>; rel=" +:+ dquote +:+ "prev" +:+ dquote) = "" /\
  parseLinkHeader ("/v2/repo/tags/list; " +:+ relNext) = "" /\
  parseLinkHeader "" = "" /\
  parseLinkHeader "</v2/repo/tags/list>" = "" /\
  parseLinkHeader ("<incomplete; " +:+ relNext) = "".
Proof. repeat split; reflexivity. Qed.

End LinkHeader.

(** ** The registry client *)

Section ClientFacts.

Variable net : Network.

Lemma decodeStringField_absent name fields cur :
  hasField name fields = false -> decodeStringField name fields cur = Some cur.
Proof.
  induction fields as [|[k v] fields IH]; [reflexivity|].
  cbn [hasField existsb fst decodeStringField].
  intros [Hk Hrest]%orb_false_iff. rewrite Hk. exact (IH Hrest).
Qed.

(** What [getBearerToken] does once it has no cached token and a challenge
    that parses: one GET to the token URL, then the status check, the
    decoding and the caching. *)
Lemma getBearerToken_request authHeader repository st params realm :
  token (client st) = "" ->
  parseChallenge authHeader = Ok (params, realm) ->
  parsesURL net (tokenURL params realm repository) = true ->
  getBearerToken net authHeader repository st =
  let req := GETreq (tokenURL params realm repository) in
  match respond net (sent st) req with
  | inl e => (Err e, afterSend req st)
  | inr resp =>
      if negb (StatusCode resp =? StatusOK)
      then (Err (ErrTokenStatus (StatusCode resp)), afterSend req st)
      else match decodeTokenResp (Body resp) with
           | None => (Err ErrDecode, afterSend req st)
           | Some (tok, accessToken) =>
               let t := if String.eqb tok "" then accessToken else tok in
               (Ok t, setToken t (afterSend req st))
           end
  end.
Proof.
  intros Ht Hc Hu. unfold getBearerToken. rewrite Ht, Hc. cbn [String.eqb negb].
  unfold Get, bind, NewRequest, Do, ret, fail. rewrite Hu. cbn zeta.
  destruct (respond net (sent st) _) as [e|resp]; [reflexivity|].
  destruct (negb _); [reflexivity|].
  destruct (decodeTokenResp (Body resp)) as [[tok acc]|]; reflexivity.
Qed.

(** [TestGetBearerToken] and [TestGetBearerToken_AccessToken]: the token
    comes from either field, and a second call is served from the cache
    without a request. *)
Example getBearerToken_test :
  let net := authRetryNet "test-token-123" {| StatusCode := 200; Header := ∅; Body := None |} in
  let first := getBearerToken net testChallenge "test"
                 {| client := NewRegistryClient 1; sent := [] |} in
  let second := getBearerToken net testChallenge "test" first.2 in
  first.1 = Ok "test-token-123" /\ length (sent first.2) = 1%nat /\
  second.1 = Ok "test-token-123" /\ length (sent second.2) = 1%nat.
Proof. repeat split; by vm_compute. Qed.

Example getBearerToken_access_token :
  decodeTokenResp (jsonToken "access_token" "access-token-456")
  = Some ("", "access-token-456").
Proof. reflexivity. Qed.

(** C4, as stated, fails: the token endpoint answers the one request 200
    with the empty JSON object, which has neither field, and
    [getBearerToken] returns the empty token and no error. *)
Lemma C4_empty_object_succeeds :
  let st := {| client := NewRegistryClient 1; sent := [] |} in
  let out := getBearerToken emptyTokenNet testChallenge "test" st in
  respond emptyTokenNet [] (GETreq "http://token.test?service=registry&scope=repository:test:pull")
  = inr {| StatusCode := 200; Header := ∅; Body := Some (JObj []) |} /\
  hasField "token" [] = false /\ hasField "access_token" [] = false /\
  out.1 = Ok "" /\
  sent out.2 = [GETreq "http://token.test?service=registry&scope=repository:test:pull"].
Proof. repeat split; by vm_compute. Qed.

End ClientFacts.

(** C4 (amended): when the token endpoint answers 200 with a JSON object
    that has neither a token nor an access_token field (no key that the
    decoder matches with either name, case folding included),
    [getBearerToken] does not fail: it returns the empty string as the
    token, with the nil error, after exactly one request, and stores that
    empty token.  A status other than 200, on an answer that the client
    hands over (no redirect that it follows), is what makes the token
    request fail. *)
Theorem C4_missing_token_fields net authHeader repository st params realm resp :
  token (client st) = "" ->
  parseChallenge authHeader = Ok (params, realm) ->
  parsesURL net (tokenURL params realm repository) = true ->
  respond net (sent st) (GETreq (tokenURL params realm repository)) = inr resp ->
  (forall fields,
     StatusCode resp = StatusOK -> Body resp = Some (JObj fields) ->
     hasField "token" fields = false -> hasField "access_token" fields = false ->
     getBearerToken net authHeader repository st
     = (Ok "", setToken "" (afterSend (GETreq (tokenURL params realm repository)) st))) /\
  (StatusCode resp <> StatusOK -> followed resp = false ->
     getBearerToken net authHeader repository st
     = (Err (ErrTokenStatus (StatusCode resp)),
        afterSend (GETreq (tokenURL params realm repository)) st)).
Proof.
  intros Ht Hc Hu Hr.
  rewrite (getBearerToken_request net authHeader repository st params realm Ht Hc Hu).
  cbn zeta. rewrite Hr. split.
  - intros fields Hs Hb Hf1 Hf2. rewrite Hs, Hb. cbn [Z.eqb StatusOK negb Pos.eqb].
    unfold decodeTokenResp.
    rewrite (decodeStringField_absent _ _ _ Hf1), (decodeStringField_absent _ _ _ Hf2).
    reflexivity.
  - intros Hs _. apply Z.eqb_neq in Hs. rewrite Hs. reflexivity.
Qed.

Lemma C4_missing_token_fields_witness :
  getBearerToken emptyTokenNet testChallenge "test"
    {| client := NewRegistryClient 1; sent := [] |}
  = (Ok "", setToken ""
              (afterSend (GETreq "http://token.test?service=registry&scope=repository:test:pull")
                 {| client := NewRegistryClient 1; sent := [] |})).
Proof.
  destruct (parseChallenge testChallenge) as [[params realm]|e] eqn:Hc;
    [|vm_compute in Hc; discriminate].
  assert (Hurl : tokenURL params realm "test"
                 = "http://token.test?service=registry&scope=repository:test:pull").
  { vm_compute in Hc. injection Hc as <- <-. by vm_compute. }
  rewrite <- Hurl.
  refine (proj1 (C4_missing_token_fields emptyTokenNet testChallenge "test"
            {| client := NewRegistryClient 1; sent := [] |} params realm
            {| StatusCode := 200; Header := ∅; Body := Some (JObj []) |}
            eq_refl Hc eq_refl eq_refl) [] eq_refl eq_refl eq_refl eq_refl).
Defined.

Section Retry.

Variable net : Network.

Lemma fetchTagsPage_401 url repository st resp0 :
  parsesURL net url = true ->
  respond net (sent st) (attachCached (token (client st)) (GETreq url)) = inr resp0 ->
  StatusCode resp0 = StatusUnauthorized ->
  Header_Get (Header resp0) "WWW-Authenticate" <> "" ->
  fetchTagsPage net url repository st =
  match getBearerToken net (Header_Get (Header resp0) "WWW-Authenticate") repository
          (afterSend (attachCached (token (client st)) (GETreq url)) st) with
  | (Err e, st1) => (Err (ErrAuthToken e), st1)
  | (Ok tok, st1) =>
      match respond net (sent st1) (pageRetry url tok) with
      | inl e => (Err e, afterSend (pageRetry url tok) st1)
      | inr resp1 =>
          if negb (StatusCode resp1 =? StatusOK)
          then (Err (ErrRegistry (StatusCode resp1)), afterSend (pageRetry url tok) st1)
          else match decodeTagsResp (Body resp1) with
               | None => (Err ErrDecode, afterSend (pageRetry url tok) st1)
               | Some tags => (Ok (tags, nextPageURL url resp1),
                               afterSend (pageRetry url tok) st1)
               end
      end
  end.
Proof.
  intros Hu Hr Hs Hh. apply String.eqb_neq in Hh.
  unfold fetchTagsPage, bind, NewRequest, withCachedToken, Do, ret, fail, wrapErr.
  rewrite Hu, Hr, Hs, Hh. cbn [Z.eqb StatusUnauthorized Pos.eqb].
  destruct (getBearerToken net _ repository _) as [[tok|e] st1]; [|reflexivity].
  fold (pageRetry url tok).
  destruct (respond net (sent st1) (pageRetry url tok)) as [e|resp1]; [reflexivity|].
  destruct (negb _); [reflexivity|].
  destruct (decodeTagsResp (Body resp1)); reflexivity.
Qed.

Lemma fetchManifestDigest_401 registryURL repository tag st resp0 :
  let url := manifestURL registryURL repository tag in
  parsesURL net url = true ->
  respond net (sent st) (attachCached (token (client st)) (manifestRequest url)) = inr resp0 ->
  StatusCode resp0 = StatusUnauthorized ->
  Header_Get (Header resp0) "WWW-Authenticate" <> "" ->
  fetchManifestDigest net registryURL repository tag st =
  match getBearerToken net (Header_Get (Header resp0) "WWW-Authenticate") repository
          (afterSend (attachCached (token (client st)) (manifestRequest url)) st) with
  | (Err e, st1) => (Err (ErrAuthToken e), st1)
  | (Ok tok, st1) =>
      match respond net (sent st1) (manifestRetry url tok) with
      | inl e => (Err e, afterSend (manifestRetry url tok) st1)
      | inr resp1 =>
          if negb (StatusCode resp1 =? StatusOK)
          then (Err (ErrRegistryTag (StatusCode resp1) tag),
                afterSend (manifestRetry url tok) st1)
          else if String.eqb (Header_Get (Header resp1) "Docker-Content-Digest") ""
               then (Err (ErrNoDigestHeader tag), afterSend (manifestRetry url tok) st1)
               else (Ok (Header_Get (Header resp1) "Docker-Content-Digest"),
                     afterSend (manifestRetry url tok) st1)
      end
  end.
Proof.
  intros url Hu Hr Hs Hh. apply String.eqb_neq in Hh.
  unfold fetchManifestDigest, bind, NewRequest, withCachedToken, Do, ret, fail, wrapErr.
  fold url. rewrite Hu. fold (manifestRequest url). rewrite Hr, Hs, Hh.
  cbn [Z.eqb StatusUnauthorized Pos.eqb].
  destruct (getBearerToken net _ repository _) as [[tok|e] st1]; [|reflexivity].
  fold (manifestRetry url tok).
  destruct (respond net (sent st1) (manifestRetry url tok)) as [e|resp1]; [reflexivity|].
  destruct (negb _); [reflexivity|].
  destruct (String.eqb (Header_Get (Header resp1) "Docker-Content-Digest") "");
    reflexivity.
Qed.

End Retry.

(** C6: on a network whose answers the client hands over (none is a
    redirect that it follows), a tag-list page request and a manifest request
    that are answered 401 with a challenge header run [getBearerToken] on
    that header; when it yields a token, exactly one more request goes out,
    the same request with that token as bearer authorization, and a status
    other than 200 on it is returned as an error; when it fails, its error is
    returned and nothing more is sent. *)
Theorem C6_retry_exactly_once net repository st :
  handsOver net ->
  (forall url resp0,
     parsesURL net url = true ->
     respond net (sent st) (attachCached (token (client st)) (GETreq url)) = inr resp0 ->
     StatusCode resp0 = StatusUnauthorized ->
     Header_Get (Header resp0) "WWW-Authenticate" <> "" ->
     let out := fetchTagsPage net url repository st in
     match getBearerToken net (Header_Get (Header resp0) "WWW-Authenticate") repository
             (afterSend (attachCached (token (client st)) (GETreq url)) st) with
     | (Err e, st1) => out = (Err (ErrAuthToken e), st1)
     | (Ok tok, st1) =>
         sent out.2 = (sent st1 ++ [pageRetry url tok])%list /\
         forall resp1, respond net (sent st1) (pageRetry url tok) = inr resp1 ->
                       StatusCode resp1 <> StatusOK ->
                       out.1 = Err (ErrRegistry (StatusCode resp1))
     end) /\
  (forall registryURL tag resp0,
     let url := manifestURL registryURL repository tag in
     parsesURL net url = true ->
     respond net (sent st) (attachCached (token (client st)) (manifestRequest url)) = inr resp0 ->
     StatusCode resp0 = StatusUnauthorized ->
     Header_Get (Header resp0) "WWW-Authenticate" <> "" ->
     let out := fetchManifestDigest net registryURL repository tag st in
     match getBearerToken net (Header_Get (Header resp0) "WWW-Authenticate") repository
             (afterSend (attachCached (token (client st)) (manifestRequest url)) st) with
     | (Err e, st1) => out = (Err (ErrAuthToken e), st1)
     | (Ok tok, st1) =>
         sent out.2 = (sent st1 ++ [manifestRetry url tok])%list /\
         forall resp1, respond net (sent st1) (manifestRetry url tok) = inr resp1 ->
                       StatusCode resp1 <> StatusOK ->
                       out.1 = Err (ErrRegistryTag (StatusCode resp1) tag)
     end).
Proof.
  intros _. split.
  - intros url resp0 Hu Hr Hs Hh out. subst out.
    rewrite (fetchTagsPage_401 net url repository st resp0 Hu Hr Hs Hh).
    destruct (getBearerToken net _ repository _) as [[tok|e] st1]; [|reflexivity].
    destruct (respond net (sent st1) (pageRetry url tok)) as [e|resp1].
    + split; [reflexivity|]. intros resp1 [=].
    + split.
      * destruct (negb _); [reflexivity|].
        destruct (decodeTagsResp (Body resp1)); reflexivity.
      * intros r [= <-] Hne. apply Z.eqb_neq in Hne. rewrite Hne. reflexivity.
  - intros registryURL tag resp0 url Hu Hr Hs Hh out. subst out.
    rewrite (fetchManifestDigest_401 net registryURL repository tag st resp0 Hu Hr Hs Hh).
    fold url.
    destruct (getBearerToken net _ repository _) as [[tok|e] st1]; [|reflexivity].
    destruct (respond net (sent st1) (manifestRetry url tok)) as [e|resp1].
    + split; [reflexivity|]. intros resp1 [=].
    + split.
      * destruct (negb _); [reflexivity|].
        destruct (String.eqb (Header_Get (Header resp1) "Docker-Content-Digest") "");
          reflexivity.
      * intros r [= <-] Hne. apply Z.eqb_neq in Hne. rewrite Hne. reflexivity.
Qed.

(** The registry of [TestFetchTagsPage_AuthRetry] answering the retry 403. *)
Lemma C6_retry_exactly_once_witness :
  let net := authRetryNet "auth-token-xyz"
               {| StatusCode := 403; Header := ∅; Body := None |} in
  let st := {| client := NewRegistryClient 1; sent := [] |} in
  let url := "http://registry.test/v2/test/tags/list" in
  let out := fetchTagsPage net url "test" st in
  match getBearerToken net testChallenge "test" (afterSend (GETreq url) st) with
  | (Err e, st1) => out = (Err (ErrAuthToken e), st1)
  | (Ok tok, st1) =>
      sent out.2 = (sent st1 ++ [pageRetry url tok])%list /\
      forall resp1, respond net (sent st1) (pageRetry url tok) = inr resp1 ->
                    StatusCode resp1 <> StatusOK ->
                    out.1 = Err (ErrRegistry (StatusCode resp1))
  end.
Proof.
  intros net st url.
  refine (proj1 (C6_retry_exactly_once net "test" st _) url
            {| StatusCode := 401; Header := {[ "WWW-Authenticate" := testChallenge ]};
               Body := None |} eq_refl eq_refl eq_refl _).
  - intros log req resp. unfold net. cbn [respond authRetryNet].
    destruct (isTokenRequest req); [by intros [= <-]|].
    destruct (registryCalls log); by intros [= <-].
  - by vm_compute.
Defined.

(** The same run, evaluated: three requests in all (the page, the token,
    the one retry), and the 403 of the retry as the error. *)
Example authRetry_403_trace :
  let net := authRetryNet "auth-token-xyz"
               {| StatusCode := 403; Header := ∅; Body := None |} in
  let out := fetchTagsPage net "http://registry.test/v2/test/tags/list" "test"
               {| client := NewRegistryClient 1; sent := [] |} in
  out.1 = Err (ErrRegistry 403) /\
  sent out.2 =
    [ GETreq "http://registry.test/v2/test/tags/list";
      GETreq "http://token.test?service=registry&scope=repository:test:pull";
      pageRetry "http://registry.test/v2/test/tags/list" "auth-token-xyz" ].
Proof. split; by vm_compute. Qed.

(** ** Pagination *)

Section Pagination.

Variable net : Network.

Lemma fetchTagsPage_200 url repository st resp tags :
  parsesURL net url = true ->
  respond net (sent st) (attachCached (token (client st)) (GETreq url)) = inr resp ->
  StatusCode resp = StatusOK ->
  decodeTagsResp (Body resp) = Some tags ->
  fetchTagsPage net url repository st
  = (Ok (tags, nextPageURL url resp),
     afterSend (attachCached (token (client st)) (GETreq url)) st).
Proof.
  intros Hu Hr Hs Hd.
  unfold fetchTagsPage, bind, NewRequest, withCachedToken, Do, ret, fail.
  rewrite Hu, Hr, Hs.
  change (StatusOK =? StatusUnauthorized) with false. cbn beta iota.
  rewrite Hs, Hd. reflexivity.
Qed.

Lemma append_nonempty a b : b <> "" -> a +:+ b <> "".
Proof.
  intros Hb. destruct a; [by rewrite app_nil|]. rewrite app_cons. discriminate.
Qed.

Lemma nextPageURL_more url resp :
  parseLinkHeader (Header_Get (Header resp) "Link") <> "" ->
  nextPageURL url resp <> "".
Proof.
  intros H. unfold nextPageURL.
  destruct (String.eqb_spec (Header_Get (Header resp) "Link") "") as [E|_].
  { rewrite E in H. by destruct H. }
  cbn [negb]. destruct (String.eqb_spec (parseLinkHeader (Header_Get (Header resp) "Link")) "")
    as [E|_]; [contradiction|].
  cbn [negb]. by apply append_nonempty.
Qed.


Lemma tagsListURL_nonempty registryURL repository :
  tagsListURL registryURL repository <> "".
Proof. unfold tagsListURL. apply append_nonempty. discriminate. Qed.

(** One turn of the loop on a page that is answered 200. *)
Lemma fetchTagsLoop_page fuel repository url allTags st resp tags :
  url <> "" ->
  parsesURL net url = true ->
  respond net (sent st) (attachCached (token (client st)) (GETreq url)) = inr resp ->
  StatusCode resp = StatusOK ->
  decodeTagsResp (Body resp) = Some tags ->
  fetchTagsLoop net (S fuel) repository url allTags st
  = fetchTagsLoop net fuel repository (nextPageURL url resp) (allTags ++ tags)%list
      (afterSend (attachCached (token (client st)) (GETreq url)) st).
Proof.
  intros Hne Hu Hr Hs Hd. cbn [fetchTagsLoop].
  apply String.eqb_neq in Hne. rewrite Hne.
  rewrite (fetchTagsPage_200 url repository st resp tags Hu Hr Hs Hd). reflexivity.
Qed.


End Pagination.



#[local] Set Warnings "-clear-no-such-hyp".
(** ** The worker pool *)

Section WorkerLists.

(** A worker found at index [i] splits the list around it, and an update at
    [i] replaces it in place. *)
Lemma lookup_split (l : list Worker) i w :
  l !! i = Some w ->
  exists l1 l2, l = (l1 ++ w :: l2)%list /\ forall w', <[i := w']> l = (l1 ++ w' :: l2)%list.
Proof.
  intros H. exists (take i l), (drop (S i) l). split.
  - symmetry. by apply take_drop_middle.
  - intros w'. apply insert_take_drop. by eapply lookup_lt_Some.
Qed.

Lemma inflight_app l1 l2 : inflight (l1 ++ l2) = (inflight l1 ++ inflight l2)%list.
Proof. apply flat_map_app. Qed.

Lemma held_app l1 l2 : held (l1 ++ l2) = (held l1 ++ held l2)%list.
Proof. apply flat_map_app. Qed.

Lemma alive_app l1 l2 : alive (l1 ++ l2) = (alive l1 + alive l2)%nat.
Proof. apply sum_list_with_app. Qed.

Lemma inflight_cons w l : inflight (w :: l) = (inflightW w ++ inflight l)%list.
Proof. reflexivity. Qed.

Lemma held_cons w l : held (w :: l) = (heldW w ++ held l)%list.
Proof. reflexivity. Qed.

Lemma alive_cons w l : alive (w :: l) = (aliveW w + alive l)%nat.
Proof. reflexivity. Qed.

(** With no worker alive, every worker has returned and holds nothing. *)
Lemma alive_zero l :
  alive l = 0%nat -> Forall (fun w => w = WExited) l /\ inflight l = [] /\ held l = [].
Proof.
  induction l as [|w l IH]; [by repeat split|].
  rewrite alive_cons. destruct w; cbn [aliveW]; try lia.
  intros H. destruct (IH H) as (F & I & Hh). repeat split; [by constructor|done|done].
Qed.

(** Either every worker has returned, or one that has not can be named. *)
Lemma alive_or_exited l :
  alive l = 0%nat \/ exists i w, l !! i = Some w /\ w <> WExited.
Proof.
  induction l as [|w l IH]; [by left|].
  destruct w as [|tag|info|]; try (right; by eexists 0%nat, _).
  destruct IH as [H|(i & w & Hi & Hw)]; [by left|].
  right. by exists (S i), w.
Qed.

End WorkerLists.

Section PoolFacts.

Variable fetch : string -> M string.
Variable tags : list string.
Variable resultsCap : nat.
Variable N : Z.
Variable J : State -> Prop.
Variable Q : TagInfo -> Prop.

Hypothesis fetch_workers :
  forall tag st, workers (client (fetch tag st).2) = workers (client st).
Hypothesis fetch_JQ :
  forall tag st, J st -> J (fetch tag st).2 /\ Q (tagInfo tag (fetch tag st).1).

Local Abbreviation PInv := (Inv tags N J Q).
Local Abbreviation poolStep := (step fetch tags resultsCap).
Local Abbreviation poolRun := (run fetch tags resultsCap).

Lemma Inv_init st : workers (client st) = N -> J st -> PInv (initPool st).
Proof.
  intros HN HJ. constructor; cbn; rewrite ?app_nil_r; try done; try lia.
  repeat split; lia.
Qed.

Local Ltac split_pool p :=
  destruct p as [pc0 jobs0 jobsClosed0 wg0 ws0 waiter0 results0 resultsClosed0
                 received0 ctxDone0 panicked0 shared0].

Local Ltac psimpl :=
  cbn [pc jobs jobsClosed wg ws waiter results resultsClosed received ctxDone
       panicked shared set_pc set_jobs set_jobsClosed set_wg set_ws set_waiter
       set_results set_resultsClosed set_received set_ctxDone set_panicked
       set_shared workerExit pending] in *.

Local Ltac lists :=
  rewrite ?held_app, ?inflight_app, ?alive_app, ?length_app, ?held_cons,
    ?inflight_cons, ?alive_cons, ?map_app;
  change (alive []) with 0%nat; change (held []) with (@nil TagInfo);
  change (inflight []) with (@nil string);
  cbn [heldW inflightW aliveW length map];
  rewrite ?app_nil_r, ?app_nil_l.

Local Ltac perm H := etrans; [exact H|]; lists; solve_Permutation.

Local Ltac foralls :=
  rewrite ?Forall_app, ?Forall_cons, ?Forall_nil in *.

Local Ltac fin :=
  lists; try done; try lia; try (repeat split; try done; lia);
  try solve [intuition (try congruence; try lia)].

Lemma Inv_stepMain p p' : PInv p -> stepMain tags p = Some p' -> PInv p'.
Proof.
  intros [HN HJ HQ Hpan Hctx Hwg Htags Hpc Hex Hcl Hdone]. split_pool p.
  unfold stepMain. psimpl. rewrite map_app in Htags.
  destruct pc0 as [i|[|tag rest]| |].
  - destruct Hpc as (Hi & Hlen & -> & -> & ->).
    destruct (Z.ltb_spec i (workers (client shared0))) as [Hlt|Hge]; intros [= <-];
      constructor; psimpl; fin; try perm Htags.
  - intros [= <-]. constructor; psimpl; fin; try perm Htags.
  - destruct (Nat.ltb_spec (length jobs0) (length tags)) as [Hlt|Hge]; [|done].
    intros [= <-]. constructor; psimpl; fin; try perm Htags.
  - intros [= <-]. constructor; psimpl; fin; try perm Htags.
  - done.
Qed.

Local Ltac qgoal HQ :=
  revert HQ; rewrite ?Forall_app, ?Forall_cons, ?Forall_nil; solve [intuition].

Local Ltac pcgoal Hpc pc0 :=
  rewrite ?length_app in Hpc; cbn [length] in Hpc; destruct pc0;
  solve [intuition (try congruence; try lia)].

Lemma Inv_stepWorker i p p' : PInv p -> stepWorker fetch resultsCap i p = Some p' -> PInv p'.
Proof.
  intros [HN HJ HQ Hpan Hctx Hwg Htags Hpc Hex Hcl Hdone]. split_pool p.
  unfold stepWorker. psimpl. rewrite map_app in Htags.
  destruct (ws0 !! i) as [w|] eqn:Hi; [|done].
  destruct (lookup_split ws0 i w Hi) as (l1 & l2 & -> & Hins). clear Hi.
  destruct w as [|tag|info|]; [| | |done];
    revert HQ Hwg Htags Hex; lists; intros HQ Hwg Htags Hex.
  - destruct jobs0 as [|tag rest].
    + destruct jobsClosed0; [|done]. intros [= <-].
      constructor; psimpl; rewrite ?Hins; fin; try perm Htags; try pcgoal Hpc pc0.
    + intros [= <-].
      constructor; psimpl; rewrite ?Hins; fin; try perm Htags; try pcgoal Hpc pc0.
  - subst ctxDone0. destruct (fetch tag shared0) as [r st'] eqn:Hf. intros [= <-].
    pose proof (fetch_workers tag shared0) as Hw.
    destruct (fetch_JQ tag shared0 HJ) as [HJ' HQ']. rewrite Hf in Hw, HJ', HQ'.
    cbn [fst snd] in Hw, HJ', HQ'.
    assert (HT : Tag (tagInfo tag r) = tag) by (by destruct r).
    constructor; psimpl; rewrite ?Hins; rewrite ?HT; fin; try perm Htags;
      try pcgoal Hpc pc0; try qgoal HQ.
  - destruct resultsClosed0.
    { apply proj1 in Hcl. specialize (Hdone (Hcl eq_refl)). lia. }
    destruct (Nat.ltb_spec (length results0) resultsCap); [|done]. intros [= <-].
    constructor; psimpl; rewrite ?Hins; fin; try perm Htags;
      try pcgoal Hpc pc0; try qgoal HQ.
Qed.

Lemma Inv_stepHandoff i p p' : PInv p -> stepHandoff i p = Some p' -> PInv p'.
Proof.
  intros [HN HJ HQ Hpan Hctx Hwg Htags Hpc Hex Hcl Hdone]. split_pool p.
  unfold stepHandoff. psimpl. rewrite map_app in Htags.
  destruct (ws0 !! i) as [w|] eqn:Hi; [|done].
  destruct (lookup_split ws0 i w Hi) as (l1 & l2 & -> & Hins). clear Hi.
  destruct w as [|tag|info|]; try done;
    revert HQ Hwg Htags Hex; lists; intros HQ Hwg Htags Hex.
  destruct resultsClosed0; [done|]. destruct results0; [|done]. intros [= <-].
  constructor; psimpl; rewrite ?Hins; fin; try perm Htags;
    try pcgoal Hpc pc0; try qgoal HQ.
Qed.

Lemma Inv_stepWaiter p p' : PInv p -> stepWaiter p = Some p' -> PInv p'.
Proof.
  intros [HN HJ HQ Hpan Hctx Hwg Htags Hpc Hex Hcl Hdone]. split_pool p.
  unfold stepWaiter. psimpl. destruct waiter0; try done.
  destruct (Z.eqb_spec wg0 0); [|done]. intros [= <-].
  rewrite map_app in Htags.
  constructor; psimpl; fin; try perm Htags; try pcgoal Hpc pc0.
Qed.

Lemma Inv_stepReceive p p' : PInv p -> stepReceive p = Some p' -> PInv p'.
Proof.
  intros [HN HJ HQ Hpan Hctx Hwg Htags Hpc Hex Hcl Hdone]. split_pool p.
  unfold stepReceive. psimpl. rewrite map_app in Htags.
  destruct results0 as [|info rest]; [done|]. intros [= <-].
  revert HQ Htags; lists; intros HQ Htags.
  constructor; psimpl; fin; try perm Htags; try pcgoal Hpc pc0; try qgoal HQ.
Qed.

(** Every move but a cancellation keeps the invariant. *)
Lemma Inv_step a p p' : PInv p -> isCancel a = false -> poolStep a p = Some p' -> PInv p'.
Proof.
  intros HI Ha. destruct a; cbn [step]; try done.
  - by apply Inv_stepMain.
  - by apply Inv_stepWorker.
  - by apply Inv_stepHandoff.
  - by apply Inv_stepWaiter.
  - by apply Inv_stepReceive.
Qed.

Lemma Inv_run schedule p p' :
  PInv p -> noCancel schedule -> poolRun schedule p = Some p' -> PInv p'.
Proof.
  revert p. induction schedule as [|a schedule IH]; intros p HI Hn; cbn [run].
  - by intros [= <-].
  - inversion Hn as [|? ? Ha Hrest]; subst.
    destruct (poolStep a p) as [p1|] eqn:Hs; [|done].
    apply IH; [by eapply Inv_step|done].
Qed.

Lemma potW_split l1 w l2 :
  sum_list_with potW (l1 ++ w :: l2)
  = (sum_list_with potW l1 + (potW w + sum_list_with potW l2))%nat.
Proof. by rewrite sum_list_with_app. Qed.

(** Every move but a cancellation uses up potential. *)
Lemma step_potential a p p' :
  PInv p -> isCancel a = false -> poolStep a p = Some p' ->
  (potential tags p' < potential tags p)%nat.
Proof.
  intros [HN HJ HQ Hpan Hctx Hwg Htags Hpc Hex Hcl Hdone] Ha. split_pool p.
  unfold potential. destruct a; cbn [step]; try done.
  - unfold stepMain. psimpl. destruct pc0 as [i|[|tag rest]| |]; try done.
    + destruct (Z.ltb_spec i (workers (client shared0))); intros [= <-]; psimpl;
        cbn [potMain potWaiter]; rewrite ?sum_list_with_app; cbn; lia.
    + intros [= <-]; psimpl; cbn [potMain potWaiter length]; lia.
    + destruct (Nat.ltb_spec (length jobs0) (length tags)); [|done].
      intros [= <-]; psimpl; cbn [potMain potWaiter length]; rewrite ?length_app;
        cbn [length]; lia.
    + intros [= <-]; psimpl; cbn [potMain potWaiter length].
      destruct Hpc as (_ & _ & ->). cbn. lia.
  - unfold stepWorker. psimpl.
    destruct (ws0 !! i) as [w|] eqn:Hi; [|done].
    destruct (lookup_split ws0 i w Hi) as (l1 & l2 & -> & Hins). clear Hi.
    destruct w as [|tag|info|]; [| | |done].
    + destruct jobs0 as [|tag rest].
      * destruct jobsClosed0; [|done]. intros [= <-]. psimpl.
        rewrite Hins, !potW_split. cbn [potW length]. lia.
      * intros [= <-]. psimpl. rewrite Hins, !potW_split. cbn [potW length]. lia.
    + subst ctxDone0. destruct (fetch tag shared0) as [r st'] eqn:Hf. intros [= <-].
      pose proof (fetch_workers tag shared0) as Hw. rewrite Hf in Hw. cbn [snd] in Hw.
      psimpl. rewrite Hins, !potW_split, Hw. cbn [potW]. lia.
    + destruct resultsClosed0.
      { apply proj1 in Hcl. specialize (Hdone (Hcl eq_refl)).
        revert Hwg. lists. lia. }
      destruct (Nat.ltb_spec (length results0) resultsCap); [|done]. intros [= <-].
      psimpl. rewrite Hins, !potW_split, length_app. cbn [potW length]. lia.
  - unfold stepHandoff. psimpl.
    destruct (ws0 !! i) as [w|] eqn:Hi; [|done].
    destruct (lookup_split ws0 i w Hi) as (l1 & l2 & -> & Hins). clear Hi.
    destruct w as [|tag|info|]; try done.
    destruct resultsClosed0; [done|]. destruct results0; [|done]. intros [= <-].
    psimpl. rewrite Hins, !potW_split. cbn [potW length]. lia.
  - unfold stepWaiter. psimpl. destruct waiter0; try done.
    destruct (Z.eqb_spec wg0 0); [|done]. intros [= <-]. psimpl. cbn [potWaiter]. lia.
  - unfold stepReceive. psimpl. destruct results0 as [|info rest]; [done|].
    intros [= <-]. psimpl. cbn [length]. lia.
Qed.

(** A state that is not closed and drained has a move, and not only a
    cancellation: no goroutine set is ever stuck. *)
Lemma progress p :
  PInv p -> ~ finished p -> exists a p', isCancel a = false /\ poolStep a p = Some p'.
Proof.
  intros [HN HJ HQ Hpan Hctx Hwg Htags Hpc Hex Hcl Hdone] Hfin. split_pool p.
  unfold finished in Hfin. psimpl. destruct pc0 as [i|[|tag rest]| |].
  - exists AMain. cbn [step]. unfold stepMain. psimpl.
    destruct (i <? workers (client shared0)); eauto.
  - exists AMain. cbn [step]. unfold stepMain. psimpl. eauto.
  - exists AMain. cbn [step]. unfold stepMain. psimpl.
    apply Permutation_length in Htags. revert Htags.
    rewrite !length_app. cbn [length]. intros Htags.
    destruct (Nat.ltb_spec (length jobs0) (length tags)); [eauto|lia].
  - exists AMain. cbn [step]. unfold stepMain. psimpl. eauto.
  - destruct Hpc as (Hlen & -> & Hw).
    destruct (alive_or_exited ws0) as [H0|(i & w & Hi & Hne)].
    + rewrite H0 in Hwg. cbn in Hwg. subst wg0.
      destruct waiter0; [done| |].
      * exists AWaiter. cbn [step]. unfold stepWaiter. psimpl. eauto.
      * destruct results0 as [|info rest].
        { destruct Hfin. split; [by apply Hcl|done]. }
        exists AReceive. cbn [step]. unfold stepReceive. psimpl. eauto.
    + destruct (lookup_split ws0 i w Hi) as (l1 & l2 & E & _).
      destruct w as [|tag|info|]; [| | |done].
      * exists (AWorker i). cbn [step]. unfold stepWorker. psimpl. rewrite Hi.
        destruct jobs0; eauto.
      * exists (AWorker i). cbn [step]. unfold stepWorker. psimpl. rewrite Hi.
        destruct ctxDone0; [eauto|]. destruct (fetch tag shared0); eauto.
      * destruct resultsClosed0 eqn:Hc.
        { apply proj1 in Hcl. specialize (Hdone (Hcl eq_refl)).
          subst ws0. revert Hwg. lists. lia. }
        destruct results0 as [|info' rest].
        -- exists (AHandoff i). cbn [step]. unfold stepHandoff. psimpl.
           rewrite Hi. eauto.
        -- exists AReceive. cbn [step]. unfold stepReceive. psimpl. eauto.
Qed.

(** From every state of a run the pool can finish: some schedule without a
    cancellation leads to the closed and drained stream. *)
Lemma completes p :
  PInv p ->
  exists schedule p', noCancel schedule /\ poolRun schedule p = Some p' /\ finished p'.
Proof.
  remember (potential tags p) as n eqn:En. revert p En.
  induction n as [n IH] using lt_wf_ind. intros p -> HI.
  destruct (resultsClosed p) eqn:Hc; [destruct (results p) eqn:Hr|].
  - exists [], p. repeat split; [constructor|done..].
  - destruct (progress p HI) as (a & p1 & Ha & Hs).
    { intros [_ E]. congruence. }
    destruct (IH _ (step_potential a p p1 HI Ha Hs) p1 eq_refl) as (sch & p' & Hn & Hrun & Hf).
    { by eapply Inv_step. }
    exists (a :: sch), p'. repeat split; try apply Hf.
    + by constructor.
    + cbn [run]. by rewrite Hs.
  - destruct (progress p HI) as (a & p1 & Ha & Hs).
    { intros [E _]. congruence. }
    destruct (IH _ (step_potential a p p1 HI Ha Hs) p1 eq_refl) as (sch & p' & Hn & Hrun & Hf).
    { by eapply Inv_step. }
    exists (a :: sch), p'. repeat split; try apply Hf.
    + by constructor.
    + cbn [run]. by rewrite Hs.
Qed.

(** A run without cancellation is no longer than the initial potential. *)
Lemma run_bounded schedule p p' :
  PInv p -> noCancel schedule -> poolRun schedule p = Some p' ->
  (length schedule + potential tags p' <= potential tags p)%nat.
Proof.
  revert p. induction schedule as [|a schedule IH]; intros p HI Hn; cbn [run length].
  - intros [= <-]. lia.
  - inversion Hn as [|? ? Ha Hrest]; subst.
    destruct (poolStep a p) as [p1|] eqn:Hs; [|done]. intros Hrun.
    pose proof (step_potential a p p1 HI Ha Hs).
    pose proof (IH p1 (Inv_step a p p1 HI Ha Hs) Hrest Hrun). lia.
Qed.

(** Nothing is emitted twice and nothing foreign is emitted. *)
Lemma emitted_sub p : PInv p -> exists rest, tags ≡ₚ map Tag (emitted p) ++ rest.
Proof.
  intros HI. exists (inflight (ws p) ++ jobs p ++ pending tags (pc p))%list.
  apply (inv_tags _ _ _ _ _ HI).
Qed.

(** Once the stream is closed, all [N >= 1] workers have returned and every
    tag has been emitted exactly once. *)
Lemma closed_complete p :
  PInv p -> 1 <= N -> resultsClosed p = true ->
  allExited p /\ Z.of_nat (length (ws p)) = N /\
  map Tag (emitted p) ≡ₚ tags /\ Forall Q (emitted p).
Proof.
  intros [HN HJ HQ Hpan Hctx Hwg Htags Hpc Hex Hcl Hdone] HN1 Hc.
  unfold allExited, emitted. split_pool p. psimpl. subst resultsClosed0.
  apply proj1 in Hcl. specialize (Hcl eq_refl). subst waiter0.
  specialize (Hdone eq_refl). subst wg0.
  assert (H0 : alive ws0 = 0%nat) by lia.
  destruct (alive_zero ws0 H0) as (Hall & Hinf & Hheld).
  rewrite Hinf in Htags. rewrite Hheld, app_nil_r in HQ.
  destruct pc0; try (destruct Hpc as (_ & _ & ?); done);
    try (destruct Hpc as (_ & _ & _ & _ & ?); done).
  destruct Hpc as (Hlen & _ & _).
  destruct Hex as [-> _]; [lia|]. cbn [pending] in Htags.
  rewrite !app_nil_r in Htags.
  repeat split; [done|lia|by symmetry|done].
Qed.

End PoolFacts.

(** ** FetchDigests on the registry client *)

Section FetchDigestsFacts.

Variable net : Network.

Lemma keepsWorkers_bind {A B} (c : M A) (k : A -> M B) :
  keepsWorkers c -> (forall a, keepsWorkers (k a)) -> keepsWorkers (bind c k).
Proof.
  intros Hc Hk st. unfold bind. specialize (Hc st).
  destruct (c st) as [[a|e] st']; cbn [snd] in *; [|done].
  by rewrite Hk.
Qed.

Lemma keepsWorkers_ret {A} (a : A) : keepsWorkers (ret a).
Proof. by intros st. Qed.

Lemma keepsWorkers_fail {A} e : keepsWorkers (@fail A e).
Proof. by intros st. Qed.

Lemma keepsWorkers_NewRequest url : keepsWorkers (NewRequest net url).
Proof. intros st. unfold NewRequest. by destruct (parsesURL net url). Qed.

Lemma keepsWorkers_Do req : keepsWorkers (Do net req).
Proof. intros st. unfold Do. by destruct (respond net (sent st) req). Qed.

Lemma keepsWorkers_wrapErr {A} f (c : M A) : keepsWorkers c -> keepsWorkers (wrapErr f c).
Proof.
  intros Hc st. unfold wrapErr. specialize (Hc st).
  by destruct (c st) as [[a|e] st'].
Qed.

Lemma keepsWorkers_getBearerToken authHeader repository :
  keepsWorkers (getBearerToken net authHeader repository).
Proof.
  intros st. unfold getBearerToken.
  destruct (negb _); [done|].
  destruct (parseChallenge authHeader) as [[params realm]|e]; [|done].
  apply keepsWorkers_bind.
  - apply keepsWorkers_bind; [apply keepsWorkers_NewRequest|apply keepsWorkers_Do].
  - intros resp. destruct (negb _); [apply keepsWorkers_fail|].
    destruct (decodeTokenResp (Body resp)) as [[tok acc]|]; [|apply keepsWorkers_fail].
    by intros st'.
Qed.

Lemma keepsWorkers_fetchManifestDigest registryURL repository tag :
  keepsWorkers (fetchManifestDigest net registryURL repository tag).
Proof.
  unfold fetchManifestDigest.
  apply keepsWorkers_bind; [apply keepsWorkers_NewRequest|]. intros req.
  apply keepsWorkers_bind; [by intros st|]. intros req'.
  apply keepsWorkers_bind; [apply keepsWorkers_Do|]. intros resp.
  apply keepsWorkers_bind.
  - destruct (StatusCode resp =? StatusUnauthorized); [|apply keepsWorkers_ret].
    destruct (String.eqb _ ""); [apply keepsWorkers_fail|].
    apply keepsWorkers_bind;
      [apply keepsWorkers_wrapErr, keepsWorkers_getBearerToken|]. intros tok.
    apply keepsWorkers_bind; [apply keepsWorkers_NewRequest|]. intros req''.
    apply keepsWorkers_Do.
  - intros resp'. destruct (negb _); [apply keepsWorkers_fail|].
    destruct (String.eqb _ ""); [apply keepsWorkers_fail|apply keepsWorkers_ret].
Qed.

End FetchDigestsFacts.

(** C2: for every list of tags, every client with at least one worker and
    every interleaving in which the cancel function is not called,
    [FetchDigests] never sends on the closed stream, has at each moment
    emitted only input tags and none twice, and has, once the stream is
    closed, seen all its workers return and emitted exactly one result per
    input tag; the run is bounded, and from each of its states it can go on
    to the closed and drained stream, where the consumer holds exactly one
    result per input tag. *)
Theorem C2_FetchDigests_exactly_once net registryURL repository tags resultsCap st
    schedule p :
  1 <= workers (client st) ->
  noCancel schedule ->
  run (fetchManifestDigest net registryURL repository) tags resultsCap schedule
    (initPool st) = Some p ->
  panicked p = false /\
  (exists rest, tags ≡ₚ map Tag (emitted p) ++ rest) /\
  (resultsClosed p = true ->
     allExited p /\ Z.of_nat (length (ws p)) = workers (client st) /\
     map Tag (emitted p) ≡ₚ tags) /\
  (length schedule <= potential tags (initPool st))%nat /\
  (exists schedule' p',
     noCancel schedule' /\
     run (fetchManifestDigest net registryURL repository) tags resultsCap schedule' p
     = Some p' /\
     finished p' /\ map Tag (received p') ≡ₚ tags).
Proof.
  intros HN Hn Hrun.
  set (fetch := fetchManifestDigest net registryURL repository) in *.
  assert (Hw : forall tag s, workers (client (fetch tag s).2) = workers (client s)).
  { intros tag s. apply keepsWorkers_fetchManifestDigest. }
  assert (HJQ : forall tag (s : State), True -> True /\ True) by done.
  pose proof (Inv_init tags (workers (client st)) (fun _ => True) (fun _ => True)
                st eq_refl I) as H0.
  pose proof (Inv_run fetch tags resultsCap _ _ _ Hw
                (fun tag s _ => conj I I) schedule _ p H0 Hn Hrun) as HI.
  split; [apply (inv_panicked _ _ _ _ _ HI)|].
  split; [by eapply emitted_sub|].
  split.
  { intros Hc.
    destruct (closed_complete tags _ _ _ p HI HN Hc) as (? & ? & ? & _). done. }
  split.
  { pose proof (run_bounded fetch tags resultsCap _ _ _ Hw
                  (fun tag s _ => conj I I) schedule _ p H0 Hn Hrun). lia. }
  destruct (completes fetch tags resultsCap _ _ _ Hw (fun tag s _ => conj I I) p HI)
    as (sch & p' & Hn' & Hrun' & Hf).
  exists sch, p'. repeat split; try done; try apply Hf.
  pose proof (Inv_run fetch tags resultsCap _ _ _ Hw
                (fun tag s _ => conj I I) sch _ p' HI Hn' Hrun') as HI'.
  destruct Hf as [Hc Hr].
  destruct (closed_complete tags _ _ _ p' HI' HN Hc) as (_ & _ & Hp & _).
  unfold emitted in Hp. by rewrite Hr, app_nil_r in Hp.
Qed.

(** The run of [sampleSchedule] on the registry of [TestFetchDigests]. *)
Lemma C2_FetchDigests_exactly_once_witness :
  exists p,
    run (fetchManifestDigest (digestRegistry lastSegment testDigests) "http://registry.test" "repo")
      ["tag1"; "tag2"; "tag3"] 4 sampleSchedule
      (initPool {| client := NewRegistryClient 2; sent := [] |}) = Some p /\
    finished p /\
    map Tag (received p) = ["tag2"; "tag1"; "tag3"] /\
    (resultsClosed p = true -> allExited p /\ Z.of_nat (length (ws p)) = 2 /\
                               map Tag (emitted p) ≡ₚ ["tag1"; "tag2"; "tag3"]).
Proof.
  eexists. split; [by vm_compute|].
  split; [by vm_compute|]. split; [by vm_compute|].
  refine (proj1 (proj2 (proj2
    (C2_FetchDigests_exactly_once (digestRegistry lastSegment testDigests)
       "http://registry.test" "repo" ["tag1"; "tag2"; "tag3"] 4
       {| client := NewRegistryClient 2; sent := [] |} sampleSchedule _ _ _ _)))).
  - cbn. lia.
  - unfold noCancel, sampleSchedule. repeat constructor.
  - by vm_compute.
Defined.

(** A client with no worker (which [main] refuses to build) closes the
    stream at once and emits nothing: the bound [1 <= workers] of C2 is
    needed. *)
Example FetchDigests_no_worker :
  exists p,
    run (fetchManifestDigest (digestRegistry lastSegment testDigests) "http://registry.test" "repo")
      ["tag1"] 4 [AMain; AMain; AMain; AMain; AWaiter]
      (initPool {| client := NewRegistryClient 0; sent := [] |}) = Some p /\
    finished p /\ received p = [] /\ jobs p = ["tag1"].
Proof. eexists. repeat split; by vm_compute. Qed.

(** ** The digest header *)

Section DigestHeader.

Variable net : Network.





Variable f : list Request -> Request -> option json.



End DigestHeader.


Section PoolOutcomes.

Variable net : Network.
Variables registryURL repository : string.
(** The registry answers the manifest request of each tag 200, always with
    the same answer. *)
Variable answer : string -> Response.

Hypothesis parses : forall tag, parsesURL net (manifestURL registryURL repository tag) = true.
Hypothesis answers :
  forall log tag,
    respond net log (manifestRequest (manifestURL registryURL repository tag))
    = inr (answer tag).
Hypothesis answers_ok : forall tag, StatusCode (answer tag) = StatusOK.



End PoolOutcomes.



(** ** The terminal program and the exit status *)

Section ExitStatus.

(** [TestModelUpdate_TagsFetched] and [TestModelUpdate_TagsError]. *)
Example Update_tags_fetched :
  let out := tui.Update (tui.initialModel "" "" 10)
               (tui.tagsMsg ["tag1"; "tag2"; "tag3"] None) in
  tui.total out.1 = 3 /\ out.2 = tui.startWorkerPool.
Proof. split; reflexivity. Qed.

Example Update_tags_error :
  let out := tui.Update (tui.initialModel "" "" 10)
               (tui.tagsMsg [] (Some (ErrTransport "failed to fetch tags"))) in
  tui.done out.1 = true /\ tui.err out.1 = Some (ErrTransport "failed to fetch tags").
Proof. split; reflexivity. Qed.

Lemma Update_targetDigest m msg : tui.targetDigest (tui.Update m msg).1 = tui.targetDigest m.
Proof.
  destruct msg as [key|tags [e|]|tag digest e| |]; cbn [tui.Update]; try reflexivity.
  - destruct (_ || _); reflexivity.
  - destruct (0 <? _); reflexivity.
  - destruct (tui.total m <=? _); reflexivity.
Qed.

(** A tag enters [matchingTags] only through a check message without error
    whose digest is the target digest. *)
Lemma matchingTags_sound msgs m tag :
  In tag (tui.matchingTags (tui.eventLoop m msgs)) ->
  In tag (tui.matchingTags m) \/
  In (tui.checkMsg tag (tui.targetDigest m) None) msgs.
Proof.
  revert m. induction msgs as [|msg msgs IH]; intros m; [by left|].
  cbn [tui.eventLoop].
  assert (Hstep : In tag (tui.matchingTags (tui.Update m msg).1) ->
                  In tag (tui.matchingTags m) \/
                  msg = tui.checkMsg tag (tui.targetDigest m) None).
  { destruct msg as [key|tags [e|]|t digest e| |]; cbn [tui.Update]; auto.
    - destruct (_ || _); auto.
    - destruct (0 <? _); auto.
    - assert (Hm : In tag (match e with
                           | None => if String.eqb digest (tui.targetDigest m)
                                     then (tui.matchingTags m ++ [t])%list
                                     else tui.matchingTags m
                           | Some _ => tui.matchingTags m
                           end) ->
                   In tag (tui.matchingTags m) \/
                   tui.checkMsg t digest e = tui.checkMsg tag (tui.targetDigest m) None).
      { destruct e; [auto|].
        destruct (String.eqb_spec digest (tui.targetDigest m)) as [->|]; [|auto].
        rewrite in_app_iff. intros [H|[<-|[]]]; auto. }
      destruct (tui.total m <=? _); exact Hm. }
  pose proof (Update_targetDigest m msg) as Htd.
  destruct (tui.Update m msg) as [m' cmd]. cbn [fst] in Hstep, Htd.
  assert (Hrest : In tag (tui.matchingTags (tui.eventLoop m' msgs)) ->
                  In tag (tui.matchingTags m) \/
                  In (tui.checkMsg tag (tui.targetDigest m) None) (msg :: msgs)).
  { intros H. destruct (IH m' H) as [H'|H'].
    - destruct (Hstep H') as [?| ->]; [by left|right; by left].
    - right. right. by rewrite <- Htd. }
  destruct cmd; try exact Hrest.
  intros H. destruct (Hstep H) as [?| ->]; [by left|right; by left].
Qed.

End ExitStatus.




(** ** More on the reference parser and the arguments of [main] *)

(** X1: an image name without any slash is resolved to Docker Hub, with
    the repository [library/] followed by the name. *)
Theorem X1_parse_bare_name image :
  strings.Contains image "/" = false ->
  parseImageReference image
  = ("https://registry-1.docker.io", "library/" +:+ image, None).
Proof.
  intros H. unfold parseImageReference.
  by rewrite (SplitN2_no_sep image slash H).
Qed.

Lemma X1_parse_bare_name_witness :
  parseImageReference "nginx" = ("https://registry-1.docker.io", "library/nginx", None).
Proof. apply (X1_parse_bare_name "nginx"). reflexivity. Defined.

(** X2: on [host/path], cut at the first slash, every host but docker.io
    gives the base URL https:// followed by the host and the path as
    repository (the cases ghcr.io and quay.io return just that); docker.io
    gives the Docker Hub registry, with [library/] put before a path that
    has no further slash. *)
Theorem X2_parse_host_path host path :
  strings.Contains host "/" = false ->
  parseImageReference (host +:+ "/" +:+ path) =
  if String.eqb host "docker.io"
  then ("https://registry-1.docker.io",
        if strings.Contains path "/" then path else "library/" +:+ path, None)
  else ("https://" +:+ host, path, None).
Proof.
  intros H. unfold parseImageReference.
  change (host +:+ "/" +:+ path) with (host +:+ String slash path).
  rewrite (SplitN2_cut host path slash H).
  destruct (String.eqb host "docker.io");
    [by destruct (strings.Contains path "/")|].
  destruct (String.eqb_spec host "ghcr.io") as [->|_]; [reflexivity|].
  destruct (String.eqb_spec host "quay.io") as [->|_]; reflexivity.
Qed.

Lemma X2_parse_host_path_witness :
  parseImageReference "localhost:5000/team/app" = ("https://localhost:5000", "team/app", None) /\
  parseImageReference "docker.io/nginx" = ("https://registry-1.docker.io", "library/nginx", None).
Proof.
  split.
  - apply (X2_parse_host_path "localhost:5000" "team/app"). reflexivity.
  - apply (X2_parse_host_path "docker.io" "nginx"). reflexivity.
Defined.

(** X3: the digest [main] hands on always starts with sha256:, and
    preparing a prepared digest changes nothing. *)
Theorem X3_mainDigest_normal arg :
  strings.HasPrefix (mainDigest arg) "sha256:" = true /\
  mainDigest (mainDigest arg) = mainDigest arg.
Proof.
  assert (H : strings.HasPrefix (mainDigest arg) "sha256:" = true).
  { unfold mainDigest. destruct (strings.HasPrefix arg "sha256:") eqn:E; cbn [negb].
    - exact E.
    - apply (HasPrefix_app "sha256:" arg). }
  split; [exact H|]. unfold mainDigest at 1. by rewrite H.
Qed.

(** ** More on the registry client: what a call sends and stores *)

Section ClientEffects.

Variable net : Network.

(** How the token request of [getBearerToken] ends, whatever the URL. *)
Lemma tokenRequest_cases url st :
  let c := (resp <- Get net url ;;
            if negb (StatusCode resp =? StatusOK)
            then fail (ErrTokenStatus (StatusCode resp))
            else match decodeTokenResp (Body resp) with
                 | None => fail ErrDecode
                 | Some (tok, accessToken) =>
                     let token := if String.eqb tok "" then accessToken else tok in
                     fun st' => (Ok token, setToken token st')
                 end) in
  (exists e, c st = (Err e, st)) \/
  (exists e, c st = (Err e, afterSend (GETreq url) st)) \/
  (exists tok, c st = (Ok tok, setToken tok (afterSend (GETreq url) st))).
Proof.
  cbn zeta. unfold Get, bind, NewRequest, Do, ret, fail.
  destruct (parsesURL net url); [|left; eauto].
  destruct (respond net (sent st) (GETreq url)) as [e|resp]; [right; left; eauto|].
  destruct (negb _); [right; left; eauto|].
  destruct (decodeTokenResp (Body resp)) as [[tok acc]|]; [|right; left; eauto].
  right; right; eauto.
Qed.

Lemma getBearerToken_cases authHeader repository st :
  (token (client st) <> "" /\
   getBearerToken net authHeader repository st = (Ok (token (client st)), st)) \/
  (token (client st) = "" /\
   ((exists e, getBearerToken net authHeader repository st = (Err e, st)) \/
    (exists e url, getBearerToken net authHeader repository st
                   = (Err e, afterSend (GETreq url) st)) \/
    (exists tok url, getBearerToken net authHeader repository st
                     = (Ok tok, setToken tok (afterSend (GETreq url) st))))).
Proof.
  unfold getBearerToken.
  destruct (String.eqb_spec (token (client st)) "") as [E|E]; cbn [negb].
  - right. split; [exact E|].
    destruct (parseChallenge authHeader) as [[params realm]|e]; [|left; eauto].
    destruct (tokenRequest_cases (tokenURL params realm repository) st)
      as [[e H]|[[e H]|[tok H]]]; cbn zeta in H; rewrite H; eauto 6.
  - left. by split.
Qed.

End ClientEffects.

(** X4: on a network whose answers the client hands over (none is a
    redirect that it follows), a call of [getBearerToken] puts at most one
    request on the wire; when it fails the client is as before; when it
    succeeds the token it returns is the token the client then holds. *)
Theorem X4_getBearerToken_effects net authHeader repository st :
  handsOver net ->
  let out := getBearerToken net authHeader repository st in
  (exists reqs, sent out.2 = (sent st ++ reqs)%list /\ (length reqs <= 1)%nat) /\
  (forall e, out.1 = Err e -> client out.2 = client st) /\
  (forall tok, out.1 = Ok tok -> token (client out.2) = tok).
Proof.
  intros _. cbn zeta.
  destruct (getBearerToken_cases net authHeader repository st)
    as [[Hne H]|[He [[e H]|[(e & url & H)|(tok & url & H)]]]]; rewrite H; cbn [fst snd].
  - split; [exists []; split; [by rewrite app_nil_r|cbn; lia]|]. split; [done|]. by intros ? [= <-].
  - split; [exists []; split; [by rewrite app_nil_r|cbn; lia]|]. split; [done|]. done.
  - split; [exists [GETreq url]; split; [done|cbn; lia]|]. split; [done|]. done.
  - split; [exists [GETreq url]; split; [done|cbn; lia]|]. split; [done|]. by intros ? [= <-].
Qed.

Lemma X4_getBearerToken_effects_witness :
  let out := getBearerToken emptyTokenNet testChallenge "test"
               {| client := NewRegistryClient 1; sent := [] |} in
  (exists reqs, sent out.2 = ([] ++ reqs)%list /\ (length reqs <= 1)%nat) /\
  (forall e, out.1 = Err e -> client out.2 = NewRegistryClient 1) /\
  (forall tok, out.1 = Ok tok -> token (client out.2) = tok).
Proof.
  apply (X4_getBearerToken_effects emptyTokenNet testChallenge "test"
           {| client := NewRegistryClient 1; sent := [] |}).
  intros log req resp [= <-]. reflexivity.
Defined.

(** X5: once [getBearerToken] has returned a non-empty token, every later
    call on that client, whatever the challenge and the repository, returns
    the same token without sending anything and without changing the
    client. *)
Theorem X5_token_cached net authHeader repository st tok st1 authHeader' repository' :
  getBearerToken net authHeader repository st = (Ok tok, st1) ->
  tok <> "" ->
  getBearerToken net authHeader' repository' st1 = (Ok tok, st1).
Proof.
  intros H Hne.
  assert (Ht : token (client st1) = tok).
  { destruct (getBearerToken_cases net authHeader repository st)
      as [[_ H']|[_ [[e H']|[(e & url & H')|(tok' & url & H')]]]];
      rewrite H in H'; by inversion H'. }
  unfold getBearerToken. rewrite Ht.
  apply String.eqb_neq in Hne. by rewrite Hne.
Qed.

Lemma X5_token_cached_witness :
  let net := authRetryNet "test-token-123" {| StatusCode := 200; Header := ∅; Body := None |} in
  let st := {| client := NewRegistryClient 1; sent := [] |} in
  let st1 := setToken "test-token-123"
               (afterSend (GETreq "http://token.test?service=registry&scope=repository:test:pull") st) in
  getBearerToken net "Basic realm=other" "elsewhere" st1 = (Ok "test-token-123", st1).
Proof.
  intros net st st1.
  apply (X5_token_cached net testChallenge "test" st "test-token-123" st1).
  - by vm_compute.
  - discriminate.
Defined.

Section RequestBounds.

Variable net : Network.

Local Ltac tail_is l :=
  exists l; split;
  [cbn [sent afterSend setToken client snd]; rewrite <- ?app_assoc, ?app_nil_r; reflexivity
  |cbn [length]; lia].

(** What the wire holds after the retry path: the token request, if any,
    then the retry, if any. *)
Lemma after_auth_tail authHeader repository st0 (retry : string -> Request) :
  match getBearerToken net authHeader repository st0 with
  | (Err e, st1) =>
      exists rest, sent st1 = (sent st0 ++ rest)%list /\ (length rest <= 1)%nat
  | (Ok tok, st1) =>
      exists rest, sent (afterSend (retry tok) st1) = (sent st0 ++ rest)%list /\
                   (length rest <= 2)%nat
  end.
Proof.
  destruct (getBearerToken_cases net authHeader repository st0)
    as [[_ H]|[_ [[e H]|[(e & url & H)|(tok & url & H)]]]]; rewrite H.
  - tail_is [retry (token (client st0))].
  - tail_is (@nil Request).
  - tail_is [GETreq url].
  - tail_is [GETreq url; retry tok].
Qed.

Lemma fetchTagsPage_sent url repository st :
  let out := fetchTagsPage net url repository st in
  if parsesURL net url
  then exists rest,
      sent out.2 = (sent st ++ attachCached (token (client st)) (GETreq url) :: rest)%list /\
      (length rest <= 2)%nat
  else out = (Err (ErrNewRequest url), st).
Proof.
  cbn zeta.
  unfold fetchTagsPage, bind, NewRequest, withCachedToken, Do, ret, fail, wrapErr.
  destruct (parsesURL net url); [|reflexivity].
  set (r0 := attachCached (token (client st)) (GETreq url)).
  destruct (respond net (sent st) r0) as [e|resp0]; [tail_is (@nil Request)|].
  destruct (StatusCode resp0 =? StatusUnauthorized).
  - destruct (String.eqb _ ""); [tail_is (@nil Request)|].
    pose proof (after_auth_tail (Header_Get (Header resp0) "WWW-Authenticate")
                  repository (afterSend r0 st) (pageRetry url)) as Ht.
    destruct (getBearerToken net _ repository (afterSend r0 st)) as [[tok|e] st1].
    + destruct Ht as (rest & Hs & Hl). exists rest. split; [|exact Hl].
      fold (pageRetry url tok).
      assert (E : forall (r : result (list string * string)) ,
                 sent (r, afterSend (pageRetry url tok) st1).2
                 = sent (afterSend (pageRetry url tok) st1)) by done.
      destruct (respond net (sent st1) (pageRetry url tok)) as [e|resp1];
        [|destruct (negb _); [|destruct (decodeTagsResp (Body resp1))]];
        cbn [snd]; rewrite Hs; cbn [sent afterSend]; by rewrite <- app_assoc.
    + destruct Ht as (rest & Hs & Hl). exists rest. split; [|lia].
      cbn [snd]. rewrite Hs. cbn [sent afterSend]. by rewrite <- app_assoc.
  - destruct (negb _); [tail_is (@nil Request)|].
    destruct (decodeTagsResp (Body resp0)); tail_is (@nil Request).
Qed.

Lemma fetchManifestDigest_sent registryURL repository tag st :
  let url := manifestURL registryURL repository tag in
  let out := fetchManifestDigest net registryURL repository tag st in
  if parsesURL net url
  then exists rest,
      sent out.2 = (sent st ++ attachCached (token (client st)) (manifestRequest url) :: rest)%list /\
      (length rest <= 2)%nat
  else out = (Err (ErrNewRequest url), st).
Proof.
  cbn zeta.
  unfold fetchManifestDigest, bind, NewRequest, withCachedToken, Do, ret, fail, wrapErr.
  set (url := manifestURL registryURL repository tag).
  destruct (parsesURL net url); [|reflexivity].
  fold (manifestRequest url).
  set (r0 := attachCached (token (client st)) (manifestRequest url)).
  destruct (respond net (sent st) r0) as [e|resp0]; [tail_is (@nil Request)|].
  destruct (StatusCode resp0 =? StatusUnauthorized).
  - destruct (String.eqb _ ""); [tail_is (@nil Request)|].
    pose proof (after_auth_tail (Header_Get (Header resp0) "WWW-Authenticate")
                  repository (afterSend r0 st) (manifestRetry url)) as Ht.
    destruct (getBearerToken net _ repository (afterSend r0 st)) as [[tok|e] st1].
    + destruct Ht as (rest & Hs & Hl). exists rest. split; [|exact Hl].
      fold (manifestRetry url tok).
      destruct (respond net (sent st1) (manifestRetry url tok)) as [e|resp1];
        [|destruct (negb _);
          [|destruct (String.eqb (Header_Get (Header resp1) "Docker-Content-Digest") "")]];
        cbn [snd]; rewrite Hs; cbn [sent afterSend]; by rewrite <- app_assoc.
    + destruct Ht as (rest & Hs & Hl). exists rest. split; [|lia].
      cbn [snd]. rewrite Hs. cbn [sent afterSend]. by rewrite <- app_assoc.
  - destruct (negb _); [tail_is (@nil Request)|].
    destruct (String.eqb (Header_Get (Header resp0) "Docker-Content-Digest") "");
      tail_is (@nil Request).
Qed.

End RequestBounds.

(** X6: on a network whose answers the client hands over (none is a
    redirect that it follows), a call of [fetchTagsPage] or of
    [fetchManifestDigest] whose URL [http.NewRequest] accepts puts first its
    request on the wire, carrying the cached token if there is one, and
    after it at most two more (a token request and one retry): never more
    than three in all.  With a URL that is refused nothing is sent. *)
Theorem X6_at_most_three_requests net repository st :
  handsOver net ->
  (forall url,
     let out := fetchTagsPage net url repository st in
     if parsesURL net url
     then exists rest,
         sent out.2 = (sent st ++ attachCached (token (client st)) (GETreq url) :: rest)%list /\
         (length rest <= 2)%nat
     else out = (Err (ErrNewRequest url), st)) /\
  (forall registryURL tag,
     let url := manifestURL registryURL repository tag in
     let out := fetchManifestDigest net registryURL repository tag st in
     if parsesURL net url
     then exists rest,
         sent out.2 = (sent st ++ attachCached (token (client st)) (manifestRequest url) :: rest)%list /\
         (length rest <= 2)%nat
     else out = (Err (ErrNewRequest url), st)).
Proof.
  intros _. split.
  - intros url. apply fetchTagsPage_sent.
  - intros registryURL tag. apply fetchManifestDigest_sent.
Qed.

(** The registry of [TestFetchTagsPage_AuthRetry]: the page, the token, the
    one retry. *)
Lemma X6_at_most_three_requests_witness :
  let net := authRetryNet "auth-token-xyz"
               {| StatusCode := 200; Header := ∅; Body := jsonTags ["tag1"; "tag2"] |} in
  let st := {| client := NewRegistryClient 1; sent := [] |} in
  let url := "http://registry.test/v2/test/tags/list" in
  exists rest,
    sent (fetchTagsPage net url "test" st).2 = ([] ++ GETreq url :: rest)%list /\
    (length rest <= 2)%nat.
Proof.
  intros net st url.
  refine (proj1 (X6_at_most_three_requests net "test" st _) url).
  intros log req resp. unfold net. cbn [respond authRetryNet].
  destruct (isTokenRequest req); [by intros [= <-]|].
  destruct (registryCalls log); by intros [= <-].
Defined.

(** X7: a digest that [fetchManifestDigest] returns without error is never
    the empty string. *)
Theorem X7_digest_nonempty net registryURL repository tag st digest :
  (fetchManifestDigest net registryURL repository tag st).1 = Ok digest ->
  digest <> "".
Proof.
  unfold fetchManifestDigest, bind, NewRequest, withCachedToken, Do, ret, fail, wrapErr.
  destruct (parsesURL net _); [|done].
  destruct (respond net (sent st) _) as [e|resp0]; [done|].
  destruct (StatusCode resp0 =? StatusUnauthorized).
  - destruct (String.eqb _ ""); [done|].
    destruct (getBearerToken net _ repository _) as [[tok|e] st1]; [|done].
    destruct (respond net (sent st1) _) as [e|resp1]; [done|].
    destruct (negb _); [done|].
    destruct (String.eqb_spec (Header_Get (Header resp1) "Docker-Content-Digest") "");
      [done|]. cbn [fst]. by intros [= <-].
  - destruct (negb _); [done|].
    destruct (String.eqb_spec (Header_Get (Header resp0) "Docker-Content-Digest") "");
      [done|]. cbn [fst]. by intros [= <-].
Qed.

Lemma X7_digest_nonempty_witness :
  (fetchManifestDigest (digestRegistry lastSegment testDigests)
     "http://registry.test" "repo" "tag1"
     {| client := NewRegistryClient 1; sent := [] |}).1 = Ok "sha256:aaaa" /\
  "sha256:aaaa" <> "".
Proof.
  assert (H : (fetchManifestDigest (digestRegistry lastSegment testDigests)
                 "http://registry.test" "repo" "tag1"
                 {| client := NewRegistryClient 1; sent := [] |}).1 = Ok "sha256:aaaa")
    by (vm_compute; reflexivity).
  split; [exact H|].
  exact (X7_digest_nonempty (digestRegistry lastSegment testDigests)
           "http://registry.test" "repo" "tag1"
           {| client := NewRegistryClient 1; sent := [] |} "sha256:aaaa" H).
Defined.

(** X8: there is no retry but the one after a challenged 401.  A transport
    error on the first request, a first answer whose status is neither 200
    nor 401 and which the client hands over (no redirect that it follows),
    and a 401 without a WWW-Authenticate header each end the call at once
    with the corresponding error, after exactly one request and with the
    client unchanged. *)
Theorem X8_first_answer_fails_at_once net repository st :
  (forall url,
     parsesURL net url = true ->
     let r0 := attachCached (token (client st)) (GETreq url) in
     let out := fetchTagsPage net url repository st in
     match respond net (sent st) r0 with
     | inl e => out = (Err e, afterSend r0 st)
     | inr resp =>
         (StatusCode resp <> StatusOK -> StatusCode resp <> StatusUnauthorized ->
          followed resp = false ->
          out = (Err (ErrRegistry (StatusCode resp)), afterSend r0 st)) /\
         (StatusCode resp = StatusUnauthorized ->
          Header_Get (Header resp) "WWW-Authenticate" = "" ->
          out = (Err ErrNoChallenge, afterSend r0 st))
     end) /\
  (forall registryURL tag,
     let url := manifestURL registryURL repository tag in
     parsesURL net url = true ->
     let r0 := attachCached (token (client st)) (manifestRequest url) in
     let out := fetchManifestDigest net registryURL repository tag st in
     match respond net (sent st) r0 with
     | inl e => out = (Err e, afterSend r0 st)
     | inr resp =>
         (StatusCode resp <> StatusOK -> StatusCode resp <> StatusUnauthorized ->
          followed resp = false ->
          out = (Err (ErrRegistryTag (StatusCode resp) tag), afterSend r0 st)) /\
         (StatusCode resp = StatusUnauthorized ->
          Header_Get (Header resp) "WWW-Authenticate" = "" ->
          out = (Err ErrNoChallenge, afterSend r0 st))
     end).
Proof.
  split.
  - intros url Hu r0 out. subst out.
    unfold fetchTagsPage, bind, NewRequest, withCachedToken, Do, ret, fail, wrapErr.
    rewrite Hu. fold r0.
    destruct (respond net (sent st) r0) as [e|resp]; [done|]. split.
    + intros H200 H401 _. apply Z.eqb_neq in H200, H401. by rewrite H401, H200.
    + intros H401 Hh. rewrite H401, Hh. reflexivity.
  - intros registryURL tag url Hu r0 out. subst out.
    unfold fetchManifestDigest, bind, NewRequest, withCachedToken, Do, ret, fail, wrapErr.
    fold url. rewrite Hu. fold (manifestRequest url). fold r0.
    destruct (respond net (sent st) r0) as [e|resp]; [done|]. split.
    + intros H200 H401 _. apply Z.eqb_neq in H200, H401. by rewrite H401, H200.
    + intros H401 Hh. rewrite H401, Hh. reflexivity.
Qed.

(** The not-found answer of [TestFetchDigests]' server. *)
Lemma X8_first_answer_fails_at_once_witness :
  let net := {| parsesURL := fun _ => true;
                respond := fun _ _ => inr {| StatusCode := 404; Header := ∅; Body := None |} |} in
  let st := {| client := NewRegistryClient 1; sent := [] |} in
  fetchManifestDigest net "http://registry.test" "repo" "gone" st
  = (Err (ErrRegistryTag 404 "gone"),
     afterSend (manifestRequest "http://registry.test/v2/repo/manifests/gone") st).
Proof.
  intros net st.
  refine (proj1 (proj2 (X8_first_answer_fails_at_once net "repo" st)
                  "http://registry.test" "gone" eq_refl) _ _ _); by vm_compute.
Defined.

(** ** More on pagination: any number of pages *)

Section Pages.

Variable net : Network.
Variable repository : string.
Hypothesis parses : forall url, parsesURL net url = true.

(** The loop walks through pages that each name a next one, collecting
    their tags in order, one request a page. *)
Lemma fetchTagsLoop_through pages :
  servesNext net pages ->
  forall rest before url acc st fuel,
    pages = (before ++ rest)%list ->
    length (sent st) = length before ->
    url <> "" ->
    exists url' st',
      fetchTagsLoop net (length rest + fuel) repository url acc st
      = fetchTagsLoop net fuel repository url' (acc ++ allTagsOf rest)%list st' /\
      url' <> "" /\ length (sent st') = length pages.
Proof.
  intros Hserve rest. induction rest as [|[resp tags] rest IH];
    intros before url acc st fuel Hp Hlen Hurl.
  - exists url, st. rewrite app_nil_r in Hp. subst pages.
    unfold allTagsOf. cbn. by rewrite app_nil_r.
  - destruct (Hserve (length before) resp tags) as (Hr & Hs & Hd & Hl).
    { subst pages. rewrite lookup_app_r by lia. by rewrite Nat.sub_diag. }
    cbn [length Nat.add].
    rewrite (fetchTagsLoop_page net _ repository url acc st resp tags Hurl
               (parses url) (Hr _ _ Hlen) Hs Hd).
    destruct (IH (before ++ [(resp, tags)])%list (nextPageURL url resp)
                (acc ++ tags)%list
                (afterSend (attachCached (token (client st)) (GETreq url)) st) fuel)
      as (url' & st' & E & Hu' & Hl').
    + by rewrite <- app_assoc.
    + cbn [sent afterSend]. rewrite !length_app. cbn [length]. lia.
    + by apply nextPageURL_more.
    + exists url', st'. rewrite E. split; [|done].
      unfold allTagsOf. cbn [map snd concat]. by rewrite <- app_assoc.
Qed.

End Pages.



Lemma fetchTagsList_failing_page net registryURL repository st pages bad fuel :
  (forall url, parsesURL net url = true) ->
  sent st = [] ->
  servesNext net pages ->
  (forall log req, length log = length pages -> respond net log req = inr bad) ->
  StatusCode bad <> StatusOK -> StatusCode bad <> StatusUnauthorized ->
  followed bad = false ->
  (length pages < fuel)%nat ->
  exists st',
    fetchTagsList net fuel registryURL repository st
    = Some (Err (ErrRegistry (StatusCode bad)), st') /\
    length (sent st') = S (length pages).
Proof.
  intros Hu Hst Hserve Hbad H200 H401 _ Hf.
  unfold fetchTagsList.
  destruct (fetchTagsLoop_through net repository Hu pages Hserve pages []
              (tagsListURL registryURL repository) [] st (fuel - length pages))
    as (url' & st' & E & Hu' & Hl'); [done|by rewrite Hst|apply tagsListURL_nonempty|].
  replace (length pages + (fuel - length pages))%nat with fuel in E by lia.
  rewrite E. destruct (fuel - length pages)%nat as [|fuel'] eqn:Ef; [lia|].
  cbn [fetchTagsLoop]. apply String.eqb_neq in Hu'. rewrite Hu'.
  unfold fetchTagsPage, bind, NewRequest, withCachedToken, Do, ret, fail.
  rewrite (Hu url'), (Hbad _ _ Hl').
  apply Z.eqb_neq in H200, H401. rewrite H401. cbn beta iota. rewrite H200. cbn [negb].
  eexists. split; [reflexivity|].
  cbn [sent afterSend]. rewrite length_app. cbn [length]. lia.
Qed.

(** X10: when, after any number of pages, the next page request is answered
    with a status that is neither 200 nor 401, on an answer that the client
    hands over (no redirect that it follows), [fetchTagsList] returns that
    status as the error and none of the tags collected so far. *)
Theorem X10_failing_page net registryURL repository st pages bad fuel :
  (forall url, parsesURL net url = true) ->
  sent st = [] ->
  servesNext net pages ->
  (forall log req, length log = length pages -> respond net log req = inr bad) ->
  StatusCode bad <> StatusOK -> StatusCode bad <> StatusUnauthorized ->
  followed bad = false ->
  (length pages < fuel)%nat ->
  exists st',
    fetchTagsList net fuel registryURL repository st
    = Some (Err (ErrRegistry (StatusCode bad)), st') /\
    length (sent st') = S (length pages).
Proof. apply fetchTagsList_failing_page. Qed.

(** X11: the loop of [fetchTagsList] has no bound of its own: against a
    registry that names a next page on every answer it is still running
    after any number of pages. *)
Theorem X11_endless_pages net registryURL repository st fuel :
  (forall url, parsesURL net url = true) ->
  (forall log req, exists resp tags,
      respond net log req = inr resp /\ pageAnswer resp tags true) ->
  fetchTagsList net fuel registryURL repository st = None.
Proof.
  intros Hu Hmore. unfold fetchTagsList.
  generalize (@nil string) as acc.
  pose proof (tagsListURL_nonempty registryURL repository) as Hurl.
  revert Hurl. generalize (tagsListURL registryURL repository) as url.
  revert st. induction fuel as [|fuel IH]; intros st url Hurl acc.
  - cbn [fetchTagsLoop]. apply String.eqb_neq in Hurl. by rewrite Hurl.
  - destruct (Hmore (sent st) (attachCached (token (client st)) (GETreq url)))
      as (resp & tags & Hr & Hs & Hd & Hl).
    rewrite (fetchTagsLoop_page net _ repository url acc st resp tags Hurl
               (Hu url) Hr Hs Hd).
    apply IH. by apply nextPageURL_more.
Qed.


Lemma X10_failing_page_witness :
  exists st',
    fetchTagsList brokenRegistry 5 "http://registry.test" "repo"
      {| client := NewRegistryClient 1; sent := [] |}
    = Some (Err (ErrRegistry 500), st') /\ length (sent st') = 2%nat.
Proof.
  apply (X10_failing_page brokenRegistry "http://registry.test" "repo"
           {| client := NewRegistryClient 1; sent := [] |}
           [({| StatusCode := 200;
                Header := {[ "Link" := "</v2/repo/tags/list?n=2&last=b>; " +:+ relNext ]};
                Body := jsonTags ["a"; "b"] |}, ["a"; "b"])]
           {| StatusCode := 500; Header := ∅; Body := None |} 5).
  - done.
  - done.
  - intros [|k] resp tags; cbn; intros [= <- <-].
    split; [by intros [|? ?] req|]. repeat split; by vm_compute.
  - by intros [|? [|? ?]] req.
  - done.
  - done.
  - reflexivity.
  - cbn. lia.
Defined.

Lemma X11_endless_pages_witness :
  fetchTagsList endlessRegistry 1000 "http://registry.test" "repo"
    {| client := NewRegistryClient 1; sent := [] |} = None.
Proof.
  apply X11_endless_pages; [done|].
  intros log req. eexists _, ["again"]. split; [reflexivity|].
  repeat split; by vm_compute.
Defined.

(** ** More on the terminal program: counting and matching *)

Section Counting.



End Counting.



Section Reported.





End Reported.



(** ** The worker pool under cancellation *)

Section PoolCancel.

Variable fetch : string -> M string.
Variable tags : list string.
Variable resultsCap : nat.
Variable N : Z.

Hypothesis fetch_workers :
  forall tag st, workers (client (fetch tag st).2) = workers (client st).

Local Abbreviation CInv := (InvC tags N).
Local Abbreviation cStep := (step fetch tags resultsCap).
Local Abbreviation cRun := (run fetch tags resultsCap).

Local Ltac split_pool p :=
  destruct p as [pc0 jobs0 jobsClosed0 wg0 ws0 waiter0 results0 resultsClosed0
                 received0 ctxDone0 panicked0 shared0].

Local Ltac psimpl :=
  cbn [pc jobs jobsClosed wg ws waiter results resultsClosed received ctxDone
       panicked shared set_pc set_jobs set_jobsClosed set_wg set_ws set_waiter
       set_results set_resultsClosed set_received set_ctxDone set_panicked
       set_shared workerExit pending] in *.

Local Ltac lists :=
  rewrite ?held_app, ?inflight_app, ?alive_app, ?length_app, ?held_cons,
    ?inflight_cons, ?alive_cons, ?map_app;
  change (alive []) with 0%nat; change (held []) with (@nil TagInfo);
  change (inflight []) with (@nil string);
  cbn [heldW inflightW aliveW length map];
  rewrite ?app_nil_r, ?app_nil_l.

Local Ltac sub H := etrans; [|exact H]; lists; solve_submseteq.

Local Ltac fin :=
  lists; try done; try lia; try (repeat split; try done; lia);
  try solve [intuition (try congruence; try lia)].

Local Ltac pcgoal Hpc pc0 :=
  rewrite ?length_app in Hpc; cbn [length] in Hpc; destruct pc0;
  solve [intuition (try congruence; try lia)].

Lemma InvC_init st : workers (client st) = N -> CInv (initPool st).
Proof.
  intros HN. constructor; cbn; rewrite ?app_nil_r; try done; try lia.
  repeat split; lia.
Qed.

Lemma InvC_step a p p' : CInv p -> cStep a p = Some p' -> CInv p'.
Proof.
  intros [HN Hpan Hwg Htags Hpc Hcl Hdone]. split_pool p.
  psimpl. rewrite map_app in Htags. destruct a; cbn [step].
  - unfold stepMain. psimpl. destruct pc0 as [i|[|tag rest]| |]; try done.
    + destruct Hpc as (Hi & Hlen & -> & -> & ->).
      destruct (Z.ltb_spec i (workers (client shared0))) as [Hlt|Hge]; intros [= <-];
        constructor; psimpl; fin; try sub Htags.
    + intros [= <-]. constructor; psimpl; fin; try sub Htags.
    + destruct (Nat.ltb_spec (length jobs0) (length tags)) as [Hlt|Hge]; [|done].
      intros [= <-]. constructor; psimpl; fin; try sub Htags.
    + intros [= <-]. constructor; psimpl; fin; try sub Htags.
  - unfold stepWorker. psimpl.
    destruct (ws0 !! i) as [w|] eqn:Hi; [|done].
    destruct (lookup_split ws0 i w Hi) as (l1 & l2 & -> & Hins). clear Hi.
    destruct w as [|tag|info|]; [| | |done];
      revert Hwg Htags; lists; intros Hwg Htags.
    + destruct jobs0 as [|tag rest].
      * destruct jobsClosed0; [|done]. intros [= <-].
        constructor; psimpl; rewrite ?Hins; fin; try sub Htags; try pcgoal Hpc pc0.
      * intros [= <-].
        constructor; psimpl; rewrite ?Hins; fin; try sub Htags; try pcgoal Hpc pc0.
    + destruct ctxDone0.
      * intros [= <-].
        constructor; psimpl; rewrite ?Hins; fin; try sub Htags; try pcgoal Hpc pc0.
      * destruct (fetch tag shared0) as [r st'] eqn:Hf. intros [= <-].
        pose proof (fetch_workers tag shared0) as Hw. rewrite Hf in Hw. cbn [snd] in Hw.
        assert (HT : Tag (tagInfo tag r) = tag) by (by destruct r).
        constructor; psimpl; rewrite ?Hins; rewrite ?HT; fin; try sub Htags;
          try pcgoal Hpc pc0.
    + destruct resultsClosed0.
      { apply proj1 in Hcl. specialize (Hdone (Hcl eq_refl)). lia. }
      destruct (Nat.ltb_spec (length results0) resultsCap); [|done]. intros [= <-].
      constructor; psimpl; rewrite ?Hins; fin; try sub Htags; try pcgoal Hpc pc0.
  - unfold stepHandoff. psimpl.
    destruct (ws0 !! i) as [w|] eqn:Hi; [|done].
    destruct (lookup_split ws0 i w Hi) as (l1 & l2 & -> & Hins). clear Hi.
    destruct w as [|tag|info|]; try done;
      revert Hwg Htags; lists; intros Hwg Htags.
    destruct resultsClosed0; [done|]. destruct results0; [|done]. intros [= <-].
    constructor; psimpl; rewrite ?Hins; fin; try sub Htags; try pcgoal Hpc pc0.
  - unfold stepWaiter. psimpl. destruct waiter0; try done.
    destruct (Z.eqb_spec wg0 0); [|done]. intros [= <-].
    constructor; psimpl; fin; try sub Htags; try pcgoal Hpc pc0.
  - unfold stepReceive. psimpl.
    destruct results0 as [|info rest]; [done|]. intros [= <-].
    revert Htags; lists; intros Htags.
    constructor; psimpl; fin; try sub Htags; try pcgoal Hpc pc0.
  - intros [= <-]. constructor; psimpl; fin; try sub Htags.
Qed.

Lemma InvC_run schedule p p' : CInv p -> cRun schedule p = Some p' -> CInv p'.
Proof.
  revert p. induction schedule as [|a schedule IH]; intros p HI; cbn [run].
  - by intros [= <-].
  - destruct (cStep a p) as [p1|] eqn:Hs; [|done].
    apply IH. by eapply InvC_step.
Qed.

(** Also after a cancellation every move but a cancellation uses up
    potential. *)
Lemma stepC_potential a p p' :
  CInv p -> isCancel a = false -> cStep a p = Some p' ->
  (potential tags p' < potential tags p)%nat.
Proof.
  intros [HN Hpan Hwg Htags Hpc Hcl Hdone] Ha. split_pool p.
  unfold potential. destruct a; cbn [step]; try done.
  - unfold stepMain. psimpl. destruct pc0 as [i|[|tag rest]| |]; try done.
    + destruct (Z.ltb_spec i (workers (client shared0))); intros [= <-]; psimpl;
        cbn [potMain potWaiter]; rewrite ?sum_list_with_app; cbn; lia.
    + intros [= <-]; psimpl; cbn [potMain potWaiter length]; lia.
    + destruct (Nat.ltb_spec (length jobs0) (length tags)); [|done].
      intros [= <-]; psimpl; cbn [potMain potWaiter length]; rewrite ?length_app;
        cbn [length]; lia.
    + intros [= <-]; psimpl; cbn [potMain potWaiter length].
      destruct Hpc as (_ & _ & ->). cbn. lia.
  - unfold stepWorker. psimpl.
    destruct (ws0 !! i) as [w|] eqn:Hi; [|done].
    destruct (lookup_split ws0 i w Hi) as (l1 & l2 & -> & Hins). clear Hi.
    destruct w as [|tag|info|]; [| | |done].
    + destruct jobs0 as [|tag rest].
      * destruct jobsClosed0; [|done]. intros [= <-]. psimpl.
        rewrite Hins, !potW_split. cbn [potW length]. lia.
      * intros [= <-]. psimpl. rewrite Hins, !potW_split. cbn [potW length]. lia.
    + destruct ctxDone0.
      * intros [= <-]. psimpl. rewrite Hins, !potW_split. cbn [potW]. lia.
      * destruct (fetch tag shared0) as [r st'] eqn:Hf. intros [= <-].
        pose proof (fetch_workers tag shared0) as Hw. rewrite Hf in Hw. cbn [snd] in Hw.
        psimpl. rewrite Hins, !potW_split, Hw. cbn [potW]. lia.
    + destruct resultsClosed0.
      { apply proj1 in Hcl. specialize (Hdone (Hcl eq_refl)).
        revert Hwg. lists. lia. }
      destruct (Nat.ltb_spec (length results0) resultsCap); [|done]. intros [= <-].
      psimpl. rewrite Hins, !potW_split, length_app. cbn [potW length]. lia.
  - unfold stepHandoff. psimpl.
    destruct (ws0 !! i) as [w|] eqn:Hi; [|done].
    destruct (lookup_split ws0 i w Hi) as (l1 & l2 & -> & Hins). clear Hi.
    destruct w as [|tag|info|]; try done.
    destruct resultsClosed0; [done|]. destruct results0; [|done]. intros [= <-].
    psimpl. rewrite Hins, !potW_split. cbn [potW length]. lia.
  - unfold stepWaiter. psimpl. destruct waiter0; try done.
    destruct (Z.eqb_spec wg0 0); [|done]. intros [= <-]. psimpl. cbn [potWaiter]. lia.
  - unfold stepReceive. psimpl. destruct results0 as [|info rest]; [done|].
    intros [= <-]. psimpl. cbn [length]. lia.
Qed.

(** Cancelled or not, a state that is not closed and drained has a move
    other than a cancellation. *)
Lemma progressC p :
  CInv p -> ~ finished p -> exists a p', isCancel a = false /\ cStep a p = Some p'.
Proof.
  intros [HN Hpan Hwg Htags Hpc Hcl Hdone] Hfin. split_pool p.
  unfold finished in Hfin. psimpl. destruct pc0 as [i|[|tag rest]| |].
  - exists AMain. cbn [step]. unfold stepMain. psimpl.
    destruct (i <? workers (client shared0)); eauto.
  - exists AMain. cbn [step]. unfold stepMain. psimpl. eauto.
  - exists AMain. cbn [step]. unfold stepMain. psimpl.
    apply submseteq_length in Htags. revert Htags.
    rewrite !length_app. cbn [length]. intros Htags.
    destruct (Nat.ltb_spec (length jobs0) (length tags)); [eauto|lia].
  - exists AMain. cbn [step]. unfold stepMain. psimpl. eauto.
  - destruct Hpc as (Hlen & -> & Hw).
    destruct (alive_or_exited ws0) as [H0|(i & w & Hi & Hne)].
    + rewrite H0 in Hwg. cbn in Hwg. subst wg0.
      destruct waiter0; [done| |].
      * exists AWaiter. cbn [step]. unfold stepWaiter. psimpl. eauto.
      * destruct results0 as [|info rest].
        { destruct Hfin. split; [by apply Hcl|done]. }
        exists AReceive. cbn [step]. unfold stepReceive. psimpl. eauto.
    + destruct (lookup_split ws0 i w Hi) as (l1 & l2 & E & _).
      destruct w as [|tag|info|]; [| | |done].
      * exists (AWorker i). cbn [step]. unfold stepWorker. psimpl. rewrite Hi.
        destruct jobs0; eauto.
      * exists (AWorker i). cbn [step]. unfold stepWorker. psimpl. rewrite Hi.
        destruct ctxDone0; [eauto|]. destruct (fetch tag shared0); eauto.
      * destruct resultsClosed0 eqn:Hc.
        { apply proj1 in Hcl. specialize (Hdone (Hcl eq_refl)).
          subst ws0. revert Hwg. lists. lia. }
        destruct results0 as [|info' rest].
        -- exists (AHandoff i). cbn [step]. unfold stepHandoff. psimpl.
           rewrite Hi. eauto.
        -- exists AReceive. cbn [step]. unfold stepReceive. psimpl. eauto.
Qed.

(** Cancelled or not, the pool can always go on to the closed and drained
    stream. *)
Lemma completesC p :
  CInv p ->
  exists schedule p', noCancel schedule /\ cRun schedule p = Some p' /\ finished p'.
Proof.
  remember (potential tags p) as n eqn:En. revert p En.
  induction n as [n IH] using lt_wf_ind. intros p -> HI.
  assert (Hdec : finished p \/ ~ finished p).
  { unfold finished. destruct (resultsClosed p); [|right; by intros [? _]].
    destruct (results p); [by left|right; by intros [_ ?]]. }
  destruct Hdec as [Hf|Hf].
  - exists [], p. repeat split; [constructor|apply Hf..].
  - destruct (progressC p HI Hf) as (a & p1 & Ha & Hs).
    destruct (IH _ (stepC_potential a p p1 HI Ha Hs) p1 eq_refl) as (sch & p' & Hn & Hrun & Hf').
    { by eapply InvC_step. }
    exists (a :: sch), p'. repeat split; try apply Hf'.
    + by constructor.
    + cbn [run]. by rewrite Hs.
Qed.

(** With the stream closed, every worker has returned. *)
Lemma closedC_allExited p : CInv p -> resultsClosed p = true -> allExited p.
Proof.
  intros [HN Hpan Hwg Htags Hpc Hcl Hdone] Hc. unfold allExited.
  apply proj1 in Hcl. specialize (Hdone (Hcl Hc)).
  apply (alive_zero (ws p)). lia.
Qed.

Lemma emittedC_sub p : CInv p -> map Tag (emitted p) ⊆+ tags.
Proof.
  intros HI. etrans; [|apply (invc_tags _ _ _ HI)].
  unfold emitted. apply submseteq_inserts_r. done.
Qed.

End PoolCancel.

Section AfterCancel.

Variable fetch : string -> M string.
Variable tags : list string.
Variable resultsCap : nat.

Lemma held_le_length l : (length (held l) <= length l)%nat.
Proof.
  induction l as [|w l IH]; [done|].
  rewrite held_cons, length_app. destruct w; cbn [heldW length]; lia.
Qed.

Local Ltac split_pool p :=
  destruct p as [pc0 jobs0 jobsClosed0 wg0 ws0 waiter0 results0 resultsClosed0
                 received0 ctxDone0 panicked0 shared0].

Local Ltac psimpl :=
  cbn [pc jobs jobsClosed wg ws waiter results resultsClosed received ctxDone
       panicked shared set_pc set_jobs set_jobsClosed set_wg set_ws set_waiter
       set_results set_resultsClosed set_received set_ctxDone set_panicked
       set_shared workerExit pending emitted] in *.

Local Ltac perm :=
  try done;
  rewrite ?held_app, ?held_cons; change (held []) with (@nil TagInfo);
  cbn [heldW]; rewrite ?app_nil_r; try done; solve_Permutation.

(** Once [ctx.Done()] is closed no worker gets past the [select]: the
    results emitted and those of the workers beyond it stay the same
    multiset, a result is emitted only by a worker that was beyond it. *)
Lemma step_after_cancel a p p' :
  ctxDone p = true -> step fetch tags resultsCap a p = Some p' ->
  ctxDone p' = true /\
  (emitted p' ++ held (ws p') ≡ₚ emitted p ++ held (ws p))%list.
Proof.
  intros Hc. split_pool p. unfold emitted. psimpl. subst ctxDone0.
  destruct a; cbn [step].
  - unfold stepMain. psimpl. destruct pc0 as [i|[|tag rest]| |]; try done.
    + destruct (i <? _); intros [= <-]; psimpl; split; perm.
    + intros [= <-]; psimpl; split; perm.
    + destruct (_ <? _)%nat; [|done]. intros [= <-]; psimpl; split; perm.
    + intros [= <-]; psimpl; split; perm.
  - unfold stepWorker. psimpl.
    destruct (ws0 !! i) as [w|] eqn:Hi; [|done].
    destruct (lookup_split ws0 i w Hi) as (l1 & l2 & -> & Hins). clear Hi.
    destruct w as [|tag|info|]; [| | |done].
    + destruct jobs0 as [|tag rest].
      * destruct jobsClosed0; [|done]. intros [= <-]. psimpl. rewrite Hins.
        split; perm.
      * intros [= <-]. psimpl. rewrite Hins. split; perm.
    + intros [= <-]. psimpl. rewrite Hins. split; perm.
    + destruct resultsClosed0; [intros [= <-]; psimpl; by split|].
      destruct (_ <? _)%nat; [|done]. intros [= <-]. psimpl. rewrite Hins.
      split; perm.
  - unfold stepHandoff. psimpl.
    destruct (ws0 !! i) as [w|] eqn:Hi; [|done].
    destruct (lookup_split ws0 i w Hi) as (l1 & l2 & -> & Hins). clear Hi.
    destruct w as [|tag|info|]; try done.
    destruct resultsClosed0; [done|]. destruct results0; [|done]. intros [= <-].
    psimpl. rewrite Hins. split; perm.
  - unfold stepWaiter. psimpl. destruct waiter0; try done.
    destruct (wg0 =? 0); [|done]. intros [= <-]. psimpl. by split.
  - unfold stepReceive. psimpl. destruct results0 as [|info rest]; [done|].
    intros [= <-]. psimpl. split; perm.
  - intros [= <-]. psimpl. by split.
Qed.

Lemma run_after_cancel schedule p p' :
  ctxDone p = true -> run fetch tags resultsCap schedule p = Some p' ->
  ctxDone p' = true /\
  (emitted p' ++ held (ws p') ≡ₚ emitted p ++ held (ws p))%list.
Proof.
  revert p. induction schedule as [|a schedule IH]; intros p Hc; cbn [run].
  - by intros [= <-].
  - destruct (step fetch tags resultsCap a p) as [p1|] eqn:Hs; [|done]. intros Hrun.
    destruct (step_after_cancel a p p1 Hc Hs) as (Hc1 & Hl1).
    destruct (IH p1 Hc1 Hrun) as (Hc2 & Hl2).
    split; [done|]. by rewrite Hl2.
Qed.

End AfterCancel.

(** X14: in every interleaving, with the cancel function called at any
    moments or never, and for any number of workers, [FetchDigests] never
    sends on the closed stream, emits only input tags and none more often
    than it was submitted, closes the stream only when every worker has
    returned, and can from each state go on, without further cancellation, to
    the closed and drained stream. *)
Theorem X14_pool_under_cancellation net registryURL repository tags resultsCap st
    schedule p :
  run (fetchManifestDigest net registryURL repository) tags resultsCap schedule
    (initPool st) = Some p ->
  panicked p = false /\
  map Tag (emitted p) ⊆+ tags /\
  (resultsClosed p = true -> allExited p) /\
  (exists schedule' p',
     noCancel schedule' /\
     run (fetchManifestDigest net registryURL repository) tags resultsCap schedule' p
     = Some p' /\ finished p').
Proof.
  intros Hrun.
  set (fetch := fetchManifestDigest net registryURL repository) in *.
  assert (Hw : forall tag s, workers (client (fetch tag s).2) = workers (client s)).
  { intros tag s. apply keepsWorkers_fetchManifestDigest. }
  pose proof (InvC_run fetch tags resultsCap _ Hw schedule _ p
                (InvC_init tags _ st eq_refl) Hrun) as HI.
  split; [apply (invc_panicked _ _ _ HI)|].
  split; [by eapply emittedC_sub|].
  split; [by eapply closedC_allExited|].
  by eapply completesC.
Qed.

Lemma X14_pool_under_cancellation_witness :
  exists p,
    run (fetchManifestDigest (digestRegistry lastSegment testDigests)
           "http://registry.test" "repo")
      ["tag1"; "tag2"; "tag3"] 4 cancelledSchedule (initPool (poolClient 2 [])) = Some p /\
    map Tag (emitted p) = ["tag1"] /\ resultsClosed p = true /\ jobs p = [] /\
    allExited p.
Proof.
  eexists. split; [by vm_compute|].
  split; [by vm_compute|]. split; [by vm_compute|]. split; [by vm_compute|].
  refine (proj1 (proj2 (proj2
    (X14_pool_under_cancellation (digestRegistry lastSegment testDigests)
       "http://registry.test" "repo" ["tag1"; "tag2"; "tag3"] 4 (poolClient 2 [])
       cancelledSchedule _ _))) _); by vm_compute.
Defined.

(** X15: once the cancel function has been called no tag gets past the
    cancellation test of a worker any more.  Through any further moves the
    tags of the results emitted, together with the tags of the workers
    beyond the test (each on the way to send the result of its tag), stay
    the same multiset: what is emitted from then on are results of workers
    that were beyond the test when cancel was called, one a worker at most,
    and a tag taken from the queue after that yields no result. *)
Theorem X15_results_after_cancel net registryURL repository tags resultsCap schedule p p' :
  ctxDone p = true ->
  run (fetchManifestDigest net registryURL repository) tags resultsCap schedule p = Some p' ->
  ctxDone p' = true /\
  map Tag (emitted p' ++ held (ws p')) ≡ₚ map Tag (emitted p ++ held (ws p)) /\
  (length (emitted p') <= length (emitted p) + length (held (ws p)))%nat /\
  (length (held (ws p)) <= length (ws p))%nat.
Proof.
  intros Hc Hrun.
  destruct (run_after_cancel _ tags resultsCap schedule p p' Hc Hrun) as (Hc' & Hl).
  split; [exact Hc'|]. split; [by rewrite Hl|].
  split; [|apply held_le_length].
  apply Permutation_length in Hl. rewrite !length_app in Hl. lia.
Qed.

Lemma X15_results_after_cancel_witness :
  exists p p',
    run (fetchManifestDigest (digestRegistry lastSegment testDigests)
           "http://registry.test" "repo")
      ["tag1"; "tag2"; "tag3"] 4 (take 13 cancelledSchedule) (initPool (poolClient 2 []))
    = Some p /\
    run (fetchManifestDigest (digestRegistry lastSegment testDigests)
           "http://registry.test" "repo")
      ["tag1"; "tag2"; "tag3"] 4 (drop 13 cancelledSchedule) p = Some p' /\
    map Tag (emitted p) = ["tag1"] /\ jobs p = ["tag3"] /\
    map Tag (emitted p') = ["tag1"] /\ jobs p' = [] /\
    map Tag (emitted p' ++ held (ws p')) ≡ₚ map Tag (emitted p ++ held (ws p)).
Proof.
  eexists _, _. split; [by vm_compute|]. split; [by vm_compute|].
  split; [by vm_compute|]. split; [by vm_compute|].
  split; [by vm_compute|]. split; [by vm_compute|].
  refine (proj1 (proj2 (X15_results_after_cancel (digestRegistry lastSegment testDigests)
            "http://registry.test" "repo" ["tag1"; "tag2"; "tag3"] 4
            (drop 13 cancelledSchedule) _ _ _ _))); by vm_compute.
Defined.

(** ** Headers: splitting and trimming what a registry writes *)

Section SplitTrim.

Lemma Contains1_app a b c :
  strings.Contains (a +:+ b) (String c "")
  = strings.Contains a (String c "") || strings.Contains b (String c "").
Proof.
  induction a as [|d a IH]; [by rewrite app_nil|].
  rewrite app_cons, !Contains_cons, IH. by rewrite orb_assoc.
Qed.

Lemma Split_no_sep s sep :
  strings.Contains s (String sep "") = false -> strings.Split s sep = [s].
Proof.
  induction s as [|c s IH]; [done|].
  rewrite Contains_cons. intros [Hc Hs]%orb_false_iff.
  cbn [strings.Split]. by rewrite Hc, (IH Hs).
Qed.

Lemma Split_cut a b sep :
  strings.Contains a (String sep "") = false ->
  strings.Split (a +:+ String sep b) sep = a :: strings.Split b sep.
Proof.
  induction a as [|c a IH]; intros Ha.
  - rewrite app_nil. cbn [strings.Split]. by rewrite Ascii.eqb_refl.
  - rewrite Contains_cons in Ha. apply orb_false_iff in Ha as [Hc Hs].
    rewrite app_cons. cbn [strings.Split]. by rewrite Hc, (IH Hs).
Qed.

(** A split into two fields or more has the separator right after the first
    field. *)
Lemma Split_two s sep x y t :
  strings.Split s sep = x :: y :: t -> exists b, s = x +:+ String sep b.
Proof.
  revert x. induction s as [|c s IH]; intros x; [done|].
  cbn [strings.Split]. destruct (Ascii.eqb_spec c sep) as [->|_].
  - intros [= <- _]. by exists s.
  - destruct (strings.Split s sep) as [|x' [|y' t']] eqn:E; cbn [strings.consHead];
      try done.
    intros [= <- <- <-]. destruct (IH x' eq_refl) as [b ->]. by exists b.
Qed.

Lemma inCutset_Contains c cutset :
  strings.inCutset c cutset = strings.Contains cutset (String c "").
Proof.
  induction cutset as [|d cutset IH]; [done|].
  cbn [strings.inCutset]. rewrite Contains_cons, Ascii.eqb_sym.
  by destruct (Ascii.eqb d c).
Qed.

Lemma TrimRight_clean cutset s : clean cutset s = true -> strings.TrimRight s cutset = s.
Proof.
  induction s as [|c s IH]; [done|].
  cbn [clean]. intros [Hc Hs]%andb_true_iff. apply negb_true_iff in Hc.
  cbn [strings.TrimRight]. rewrite (IH Hs), Hc. by destruct s.
Qed.

Lemma TrimRight_last cutset s c :
  clean cutset s = true -> strings.inCutset c cutset = true ->
  strings.TrimRight (s +:+ String c "") cutset = s.
Proof.
  intros Hs Hc. induction s as [|d s IH].
  - rewrite app_nil. cbn [strings.TrimRight]. by rewrite Hc.
  - cbn [clean] in Hs. apply andb_true_iff in Hs as [Hd Hs]. apply negb_true_iff in Hd.
    rewrite app_cons. cbn [strings.TrimRight]. rewrite (IH Hs), Hd. by destruct s.
Qed.

(** Trimming gives back what was wrapped into two bytes of the cutset. *)
Lemma Trim_wrapped cutset l r s :
  strings.inCutset l cutset = true -> strings.inCutset r cutset = true ->
  clean cutset s = true ->
  strings.Trim (String l (s +:+ String r "")) cutset = s.
Proof.
  intros Hl Hr Hs. unfold strings.Trim. cbn [strings.TrimLeft]. rewrite Hl.
  destruct s as [|c s].
  - rewrite app_nil. cbn [strings.TrimLeft]. by rewrite Hr.
  - pose proof Hs as Hs'. cbn [clean] in Hs'. apply andb_true_iff in Hs' as [Hc _].
    apply negb_true_iff in Hc. rewrite app_cons. cbn [strings.TrimLeft]. rewrite Hc.
    rewrite <- app_cons. by apply TrimRight_last.
Qed.

Lemma HasSuffix1_last s c : strings.HasSuffix (s +:+ String c "") (String c "") = true.
Proof. rewrite HasSuffix1_app by done. cbn. by rewrite Ascii.eqb_refl. Qed.

Lemma clean_two a b s :
  strings.Contains s (String a "") = false ->
  strings.Contains s (String b "") = false ->
  clean (String a (String b "")) s = true.
Proof.
  induction s as [|c s IH]; [done|].
  rewrite !Contains_cons. intros [Ha Hsa]%orb_false_iff [Hb Hsb]%orb_false_iff.
  cbn [clean strings.inCutset]. by rewrite Ha, Hb, (IH Hsa Hsb).
Qed.

Lemma clean_one a s :
  strings.Contains s (String a "") = false -> clean (String a "") s = true.
Proof.
  induction s as [|c s IH]; [done|].
  rewrite !Contains_cons. intros [Ha Hsa]%orb_false_iff.
  cbn [clean strings.inCutset]. by rewrite Ha, (IH Hsa).
Qed.

End SplitTrim.

(** ** The link header *)

(** No white space rune ends in the byte of a closing angle bracket, so
    white space cannot be all there is of a string that ends in one. *)
Lemma trimLeftSpace_gt n s :
  (String.length s < n)%nat ->
  exists t, strings.trimLeftSpace (s +:+ ">") = t +:+ ">".
Proof.
  revert s. induction n as [|n IH]; intros s Hn; [lia|].
  destruct s as [|c1 s1]; [by exists ""|].
  rewrite app_cons. cbn [strings.trimLeftSpace].
  destruct (strings.inCutset c1 strings.asciiSpace).
  { apply IH. cbn in Hn. lia. }
  destruct s1 as [|c2 s2].
  { rewrite app_nil. unfold strings.isSpace2. cbn [Ascii.eqb Bool.eqb ascii_of_nat
      ascii_of_pos ascii_of_N Pos.of_succ_nat Pos.succ orb]. rewrite andb_false_r.
    by exists (String c1 ""). }
  rewrite app_cons. destruct (strings.isSpace2 c1 c2).
  { apply IH. cbn in Hn. lia. }
  destruct s2 as [|c3 s3].
  { rewrite app_nil.
    assert (E : strings.isSpace3 c1 c2 ">" = false).
    { unfold strings.isSpace3. cbv zeta.
      change (nat_of_ascii ">") with 62%nat.
      cbn [Nat.eqb Nat.leb orb andb]. by rewrite !andb_false_r. }
    rewrite E. by exists (String c1 (String c2 "")). }
  rewrite app_cons. destruct (strings.isSpace3 c1 c2 c3).
  { apply IH. cbn in Hn. lia. }
  by exists (String c1 (String c2 (String c3 s3))).
Qed.

Lemma allSpace_gt s : strings.allSpace (s +:+ ">") = false.
Proof.
  unfold strings.allSpace.
  destruct (trimLeftSpace_gt (S (String.length s)) s) as [t ->]; [lia|].
  by destruct t.
Qed.

Lemma trimRightSpace_gt s : strings.trimRightSpace (s +:+ ">") = s +:+ ">".
Proof.
  induction s as [|c s IH].
  - reflexivity.
  - rewrite app_cons. cbn [strings.trimRightSpace].
    rewrite <- app_cons, allSpace_gt, app_cons. by rewrite IH.
Qed.

(** [TrimSpace] leaves a field between angle brackets as it is. *)
Lemma TrimSpace_angle s :
  strings.TrimSpace (String "<" (s +:+ ">")) = String "<" (s +:+ ">").
Proof.
  unfold strings.TrimSpace.
  assert (E : strings.trimLeftSpace (String "<" (s +:+ ">")) = String "<" (s +:+ ">")).
  { by destruct (s +:+ ">") as [|c2 [|c3 s3]]. }
  rewrite E. apply (trimRightSpace_gt (String "<" s)).
Qed.

Lemma nextLink_fields path :
  strings.Contains path ";" = false ->
  strings.Split (nextLink path) ";"
  = [String "<" (path +:+ ">"); " " +:+ relNext].
Proof.
  intros Hp.
  assert (E : nextLink path
              = String "<" (path +:+ ">") +:+ String ";" (" " +:+ relNext)).
  { unfold nextLink. rewrite (app_cons "<" (path +:+ ">")), append_assoc.
    reflexivity. }
  rewrite E, Split_cut.
  - by rewrite (Split_no_sep (" " +:+ relNext)).
  - rewrite Contains_cons, Contains1_app, Hp. reflexivity.
Qed.

(** X16 (parseLinkHeader): the link header of a next page is read back to
    its path: for every path without a semicolon and without angle brackets,
    the header "<path>; rel=next" (next in double quotes) parses to
    exactly that path. *)
Theorem X16_link_round_trip (path : string) :
  strings.Contains path ";" = false ->
  strings.Contains path "<" = false ->
  strings.Contains path ">" = false ->
  parseLinkHeader (nextLink path) = path.
Proof.
  intros Hs Hl Hr. unfold parseLinkHeader. rewrite (nextLink_fields _ Hs).
  cbv zeta. rewrite TrimSpace_angle, <- app_cons.
  rewrite HasSuffix1_last. rewrite app_cons. cbn [strings.HasPrefix].
  change (Ascii.eqb "<" "<") with true. rewrite HasPrefix_empty.
  cbn [negb orb nextAmong].
  assert (Ec : strings.Contains (" " +:+ relNext) relNext = true) by reflexivity.
  rewrite Ec. apply Trim_wrapped; [reflexivity|reflexivity|].
  by apply clean_two.
Qed.

Lemma X16_link_round_trip_witness :
  parseLinkHeader (nextLink "/v2/library/nginx/tags/list?n=1000&last=1.9")
  = "/v2/library/nginx/tags/list?n=1000&last=1.9".
Proof. apply X16_link_round_trip; reflexivity. Defined.

(** ** The challenge *)

(** Both sides as one chain of bytes and variables. *)
Local Ltac chain :=
  repeat first [rewrite append_assoc | rewrite app_cons | rewrite app_nil].

(** A closed statement on the separators of a string built from plain
    values. *)
Local Ltac nosep :=
  unfold challengeField, dquote in *;
  repeat first [rewrite Contains1_app | rewrite Contains_cons];
  repeat match goal with H : strings.Contains _ _ = false |- _ => rewrite ?H; clear H end;
  reflexivity.

Lemma challengeField_param k v (params : gmap string string) :
  strings.Contains k "=" = false ->
  strings.Contains v dquote = false ->
  match strings.SplitN (challengeField k v) "=" 2 with
  | [k'; v'] => <[k' := strings.Trim v' dquote]> params
  | _ => params
  end = <[k := v]> params.
Proof.
  intros Hk Hv. unfold challengeField. rewrite (SplitN2_cut _ _ _ Hk).
  unfold dquote. rewrite app_cons, app_nil.
  rewrite Trim_wrapped; [done|reflexivity|reflexivity|].
  by apply clean_one.
Qed.

Lemma bearerChallenge_fields realm service scope :
  plainValue realm -> plainValue service -> plainValue scope ->
  strings.Split (bearerChallenge realm service scope) " "
  = ["Bearer"; challengeField "realm" realm +:+ String ","
                 (challengeField "service" service +:+ String ","
                    (challengeField "scope" scope))].
Proof.
  intros (R1 & R2 & R3) (S1 & S2 & S3) (C1 & C2 & C3).
  set (rest := challengeField "realm" realm +:+ _).
  assert (E : bearerChallenge realm service scope = "Bearer" +:+ String " " rest).
  { unfold rest, bearerChallenge, challengeField, dquote. chain. reflexivity. }
  rewrite E, Split_cut by reflexivity. f_equal. apply Split_no_sep.
  unfold rest. nosep.
Qed.

Lemma parseChallenge_bearer realm service scope :
  plainValue realm -> plainValue service -> plainValue scope ->
  parseChallenge (bearerChallenge realm service scope)
  = Ok (<["scope" := scope]> (<["service" := service]> (<["realm" := realm]> ∅)),
        realm).
Proof.
  intros Hr Hs Hc. unfold parseChallenge.
  rewrite (bearerChallenge_fields _ _ _ Hr Hs Hc). cbv zeta.
  change (negb ("Bearer" =? "Bearer")%string) with false. cbv iota.
  destruct Hr as (R1 & R2 & R3), Hs as (S1 & S2 & S3), Hc as (C1 & C2 & C3).
  rewrite Split_cut by nosep.
  rewrite Split_cut by nosep.
  rewrite Split_no_sep by nosep.
  unfold challengeParams. cbn [fold_left].
  rewrite !challengeField_param by done.
  rewrite lookup_insert_ne by done. rewrite lookup_insert_ne by done.
  by rewrite lookup_insert_eq.
Qed.

Lemma parseChallenge_realm realm :
  plainValue realm ->
  parseChallenge (realmChallenge realm) = Ok (<["realm" := realm]> ∅, realm).
Proof.
  intros (R1 & R2 & R3). unfold parseChallenge.
  assert (E : realmChallenge realm
              = "Bearer" +:+ String " " (challengeField "realm" realm)).
  { unfold realmChallenge, challengeField, dquote. chain. reflexivity. }
  rewrite E, Split_cut by reflexivity.
  rewrite Split_no_sep by nosep. cbv zeta.
  change (negb ("Bearer" =? "Bearer")%string) with false. cbv iota.
  rewrite Split_no_sep by nosep.
  unfold challengeParams. cbn [fold_left].
  rewrite !challengeField_param by done.
  by rewrite lookup_insert_eq.
Qed.

Lemma Split_nonempty s sep : strings.Split s sep <> [].
Proof.
  destruct s as [|c s]; [done|]. cbn [strings.Split].
  destruct (Ascii.eqb c sep); [done|]. by destruct (strings.Split s sep).
Qed.

(** X17 (getBearerToken): a challenge with realm, service and scope is read
    back in full: with an empty cache, and on a network whose answers the
    client hands over (none is a redirect that it follows), the one request
    of the call is a GET to realm?service=S&scope=SC, whatever the
    repository; the values may hold any bytes but spaces, commas and double
    quotes. *)
Theorem X17_token_request (net : Network) (realm service scope repository : string)
    (st : State) :
  handsOver net ->
  plainValue realm -> plainValue service -> plainValue scope ->
  token (client st) = "" ->
  parsesURL net (realm +:+ "?service=" +:+ service +:+ "&scope=" +:+ scope) = true ->
  sent (getBearerToken net (bearerChallenge realm service scope) repository st).2
  = (sent st ++ [GETreq (realm +:+ "?service=" +:+ service +:+ "&scope=" +:+ scope)])%list.
Proof.
  intros _ Hr Hs Hc Ht Hu.
  pose proof (parseChallenge_bearer _ _ _ Hr Hs Hc) as Hp.
  set (params := <["scope" := scope]> _) in Hp.
  assert (E : tokenURL params realm repository
              = realm +:+ "?service=" +:+ service +:+ "&scope=" +:+ scope).
  { unfold tokenURL. unfold params. rewrite lookup_insert_eq.
    rewrite lookup_insert_ne by done. rewrite lookup_insert_eq. chain. reflexivity. }
  rewrite (getBearerToken_request net _ repository st _ _ Ht Hp) by (by rewrite E).
  cbv zeta. rewrite E.
  destruct (respond net _ _) as [e|resp]; [done|].
  destruct (negb _); [done|].
  by destruct (decodeTokenResp _) as [[tok acc]|].
Qed.

Lemma X17_token_request_witness :
  sent (getBearerToken emptyTokenNet
          (bearerChallenge "https://auth.docker.io/token" "registry.docker.io"
             "repository:library/nginx:pull")
          "library/nginx" {| client := NewRegistryClient 10; sent := [] |}).2
  = [GETreq ("https://auth.docker.io/token" +:+ "?service=" +:+ "registry.docker.io"
             +:+ "&scope=" +:+ "repository:library/nginx:pull")].
Proof.
  apply (X17_token_request emptyTokenNet "https://auth.docker.io/token"
           "registry.docker.io" "repository:library/nginx:pull" "library/nginx"
           {| client := NewRegistryClient 10; sent := [] |});
    try (by intros log req resp [= <-]);
    try (repeat split; reflexivity); reflexivity.
Defined.

(** X18 (getBearerToken): a challenge that names a realm only gets the pull
    scope of the repository at hand: with an empty cache, and on a network
    whose answers the client hands over (none is a redirect that it
    follows), the one request of the call is a GET to
    realm?scope=repository:REPO:pull. *)
Theorem X18_synthesized_scope (net : Network) (realm repository : string) (st : State) :
  handsOver net ->
  plainValue realm ->
  token (client st) = "" ->
  parsesURL net (realm +:+ "?scope=repository:" +:+ repository +:+ ":pull") = true ->
  sent (getBearerToken net (realmChallenge realm) repository st).2
  = (sent st ++ [GETreq (realm +:+ "?scope=repository:" +:+ repository +:+ ":pull")])%list.
Proof.
  intros _ Hr Ht Hu.
  pose proof (parseChallenge_realm _ Hr) as Hp.
  assert (E : tokenURL (<["realm" := realm]> ∅) realm repository
              = realm +:+ "?scope=repository:" +:+ repository +:+ ":pull").
  { unfold tokenURL. rewrite !lookup_insert_ne by done. rewrite !lookup_empty.
    chain. reflexivity. }
  rewrite (getBearerToken_request net _ repository st _ _ Ht Hp) by (by rewrite E).
  cbv zeta. rewrite E.
  destruct (respond net _ _) as [e|resp]; [done|].
  destruct (negb _); [done|].
  by destruct (decodeTokenResp _) as [[tok acc]|].
Qed.

Lemma X18_synthesized_scope_witness :
  sent (getBearerToken emptyTokenNet (realmChallenge "https://ghcr.io/token")
          "owner/repo" {| client := NewRegistryClient 10; sent := [] |}).2
  = [GETreq ("https://ghcr.io/token" +:+ "?scope=repository:" +:+ "owner/repo" +:+ ":pull")].
Proof.
  apply (X18_synthesized_scope emptyTokenNet "https://ghcr.io/token" "owner/repo"
           {| client := NewRegistryClient 10; sent := [] |});
    try (by intros log req resp [= <-]);
    try (repeat split; reflexivity); reflexivity.
Defined.

(** X19 (getBearerToken): the scheme test.  A challenge is refused as an
    unsupported auth type exactly when it does not begin with the word
    Bearer and a space; with an empty cache the call then returns that error
    naming the first field of the challenge, with nothing sent and no state
    changed. *)
Theorem X19_scheme_must_be_bearer (net : Network) (authHeader repository : string)
    (st : State) :
  token (client st) = "" ->
  (strings.HasPrefix authHeader "Bearer " = false <->
   exists p0, parseChallenge authHeader = Err (ErrUnsupportedAuthType p0)) /\
  (strings.HasPrefix authHeader "Bearer " = false ->
   getBearerToken net authHeader repository st
   = (Err (ErrUnsupportedAuthType (hd "" (strings.Split authHeader " "))), st)).
Proof.
  intros Ht.
  assert (Hno : strings.HasPrefix authHeader "Bearer " = false ->
                parseChallenge authHeader
                = Err (ErrUnsupportedAuthType (hd "" (strings.Split authHeader " ")))).
  { intros Hp. unfold parseChallenge.
    destruct (strings.Split authHeader " ") as [|p0 [|p1 t]] eqn:E; [done|done|].
    cbv zeta. destruct (String.eqb_spec p0 "Bearer") as [->|_]; [|done].
    apply Split_two in E as [b ->].
    pose proof (HasPrefix_app "Bearer " b) as Hq.
    change ("Bearer " +:+ b) with ("Bearer" +:+ String " " b) in Hq. congruence. }
  assert (Hyes : strings.HasPrefix authHeader "Bearer " = true ->
                 forall p0, parseChallenge authHeader <> Err (ErrUnsupportedAuthType p0)).
  { intros Hp p0. apply HasPrefix_split in Hp as [b ->]. unfold parseChallenge.
    assert (E : "Bearer " +:+ b = "Bearer" +:+ String " " b) by reflexivity.
    rewrite E, Split_cut by reflexivity.
    pose proof (Split_nonempty b " ").
    destruct (strings.Split b " ") as [|p1 t]; [done|]. cbv zeta.
    change (negb ("Bearer" =? "Bearer")%string) with false. cbv iota.
    by destruct (_ !! "realm"). }
  split; [split|].
  - intros Hp. rewrite (Hno Hp). by eexists.
  - intros [p0 Hp]. destruct (strings.HasPrefix authHeader "Bearer ") eqn:Hb; [|done].
    by destruct (Hyes eq_refl p0).
  - intros Hp. unfold getBearerToken. by rewrite Ht, (Hno Hp).
Qed.

Lemma X19_scheme_must_be_bearer_witness :
  getBearerToken emptyTokenNet "Basic realm=registry" "library/nginx"
    {| client := NewRegistryClient 10; sent := [] |}
  = (Err (ErrUnsupportedAuthType "Basic"), {| client := NewRegistryClient 10; sent := [] |}).
Proof.
  apply (X19_scheme_must_be_bearer emptyTokenNet "Basic realm=registry" "library/nginx"
           {| client := NewRegistryClient 10; sent := [] |}); reflexivity.
Defined.

(** ** The next page URL *)

Lemma HasPrefix_long x y p :
  (String.length p <= String.length x)%nat ->
  strings.HasPrefix (x +:+ y) p = strings.HasPrefix x p.
Proof.
  revert x. induction p as [|c p IH]; intros x Hl; [by rewrite !HasPrefix_empty|].
  destruct x as [|d x]; [cbn in Hl; lia|].
  rewrite app_cons. cbn [strings.HasPrefix]. destruct (Ascii.eqb d c); [|done].
  apply IH. cbn in Hl. lia.
Qed.

Lemma Contains_tail c s sub :
  strings.Contains (String c s) sub = false -> strings.Contains s sub = false.
Proof.
  unfold strings.Contains. rewrite (Index_unfold (String c s)).
  destruct (strings.HasPrefix _ sub); [done|].
  pose proof (Index_ge_m1 s sub).
  destruct (Z.ltb_spec (strings.Index s sub) 0); lia.
Qed.

Lemma Contains_head s sub :
  strings.Contains s sub = false -> strings.HasPrefix s sub = false.
Proof.
  unfold strings.Contains. rewrite (Index_unfold s).
  by destruct (strings.HasPrefix s sub).
Qed.

Lemma length_app_ge a b : (String.length b <= String.length (a +:+ b))%nat.
Proof.
  induction a as [|c a IH]; [by rewrite app_nil|].
  rewrite app_cons. cbn [String.length]. lia.
Qed.

(** The first "/v2/" of a URL is the one after a base that has none, not
    even with the "/v2" that follows it. *)
Lemma Index_v2 base rest :
  strings.Contains (base +:+ "/v2") "/v2/" = false ->
  strings.Index (base +:+ "/v2/" +:+ rest) "/v2/" = Z.of_nat (String.length base).
Proof.
  induction base as [|c base IH]; intros Hb.
  - rewrite app_nil, Index_unfold, HasPrefix_app. reflexivity.
  - rewrite app_cons, Index_unfold.
    assert (Hp : strings.HasPrefix (String c (base +:+ "/v2/" +:+ rest)) "/v2/" = false).
    { assert (E : String c (base +:+ "/v2/" +:+ rest)
                  = String c (base +:+ "/v2") +:+ ("/" +:+ rest)).
      { rewrite (app_cons c (base +:+ "/v2")). f_equal. rewrite append_assoc.
        reflexivity. }
      rewrite E, HasPrefix_long.
      - apply Contains_head. by rewrite <- app_cons.
      - pose proof (length_app_ge base "/v2") as Hl. cbn [String.length] in *. lia. }
    rewrite Hp. rewrite app_cons in Hb. apply Contains_tail in Hb.
    rewrite (IH Hb). cbn [String.length].
    destruct (Z.ltb_spec (Z.of_nat (String.length base)) 0); lia.
Qed.

Lemma takeBytes_app a b : takeBytes (String.length a) (a +:+ b) = a.
Proof.
  induction a as [|c a IH]; [by destruct b|].
  rewrite app_cons. cbn [String.length takeBytes]. by rewrite IH.
Qed.

(** A slash-free host other than v2 gives a base without "/v2/". *)
Lemma host_no_v2 host :
  strings.Contains host "/" = false ->
  strings.Contains (host +:+ "/v2") "/v2/" = false.
Proof.
  induction host as [|c host IH]; [reflexivity|].
  rewrite Contains_cons. intros [Hc Hh]%orb_false_iff.
  unfold strings.Contains in *. rewrite app_cons, Index_unfold.
  cbn [strings.HasPrefix]. rewrite Hc.
  specialize (IH Hh). pose proof (Index_ge_m1 (host +:+ "/v2") "/v2/").
  destruct (Z.ltb_spec (strings.Index (host +:+ "/v2") "/v2/") 0); [done|].
  destruct (Z.leb_spec 0 (strings.Index (host +:+ "/v2") "/v2/")); [done|lia].
Qed.

Lemma https_no_v2 host :
  strings.Contains host "/" = false -> host <> "v2" ->
  strings.Contains (("https://" +:+ host) +:+ "/v2") "/v2/" = false.
Proof.
  intros Hh Hne. pose proof (host_no_v2 host Hh) as Ht.
  assert (Hp : strings.HasPrefix (host +:+ "/v2") "v2/" = false).
  { destruct host as [|a [|b [|c host]]]; [reflexivity| | |].
    - rewrite app_cons, app_nil. cbn [strings.HasPrefix].
      destruct (Ascii.eqb a "v"); reflexivity.
    - rewrite !app_cons, app_nil. cbn [strings.HasPrefix].
      destruct (Ascii.eqb_spec a "v") as [->|_]; [|done].
      destruct (Ascii.eqb_spec b "2") as [->|_]; [|done]. by destruct Hne.
    - rewrite !app_cons. cbn [strings.HasPrefix].
      rewrite !Contains_cons in Hh.
      apply orb_false_iff in Hh as [_ Hh]. apply orb_false_iff in Hh as [_ Hh].
      apply orb_false_iff in Hh as [Hc _]. rewrite Hc.
      destruct (Ascii.eqb a "v"); [|done]. by destruct (Ascii.eqb b "2"). }
  unfold strings.Contains in *.
  pose proof (Index_ge_m1 (host +:+ "/v2") "/v2/").
  assert (Hi : strings.Index (host +:+ "/v2") "/v2/" = -1).
  { destruct (Z.leb_spec 0 (strings.Index (host +:+ "/v2") "/v2/")); [done|lia]. }
  rewrite append_assoc. rewrite !app_cons, app_nil.
  do 7 (rewrite Index_unfold; cbn [strings.HasPrefix Ascii.eqb Bool.eqb]).
  rewrite Index_unfold. cbn [strings.HasPrefix]. change (Ascii.eqb "/" "/") with true.
  cbv iota. rewrite Hp, Hi. reflexivity.
Qed.

Lemma nextPageURL_base base rest resp :
  strings.Contains (base +:+ "/v2") "/v2/" = false ->
  parseLinkHeader (Header_Get (Header resp) "Link") <> "" ->
  nextPageURL (base +:+ "/v2/" +:+ rest) resp
  = base +:+ parseLinkHeader (Header_Get (Header resp) "Link").
Proof.
  intros Hb Hn. unfold nextPageURL.
  destruct (String.eqb_spec (Header_Get (Header resp) "Link") "") as [E|_].
  { rewrite E in Hn. by destruct Hn. }
  cbn [negb].
  destruct (String.eqb_spec (parseLinkHeader (Header_Get (Header resp) "Link")) "")
    as [E|_]; [contradiction|].
  cbn [negb]. cbv zeta. rewrite (Index_v2 _ _ Hb).
  destruct (Z.leb_spec 0 (Z.of_nat (String.length base))); [|lia].
  by rewrite Nat2Z.id, takeBytes_app.
Qed.

(** The base URL of a reference whose host is not v2 has no "/v2/", not even
    with the "/v2" that follows it. *)
Lemma registryURL_no_v2 image :
  strings.HasPrefix image "v2/" = false ->
  strings.Contains (registryURL (parseImageReference image) +:+ "/v2") "/v2/" = false.
Proof.
  intros Hv. unfold parseImageReference.
  destruct (SplitN2_cases image slash) as [[_ ->]|(host & path & -> & Hh & ->)];
    [reflexivity|].
  cbv zeta. destruct (String.eqb host "docker.io"); [reflexivity|].
  destruct (String.eqb_spec host "ghcr.io") as [->|_]; [reflexivity|].
  destruct (String.eqb_spec host "quay.io") as [->|_]; [reflexivity|].
  unfold registryURL. cbn [fst]. apply https_no_v2; [exact Hh|].
  intros ->. pose proof (HasPrefix_app "v2/" path) as Hq.
  change ("v2/" +:+ path) with ("v2" +:+ String slash path) in Hq. congruence.
Qed.

(** X20 (fetchTagsPage): the next page URL is the link's path put after the
    base of the request URL.  For a request URL base/v2/..., whose base has
    no "/v2/" of its own (not even with the "/v2" that follows it), a link
    header that names a next path gives base followed by that path. *)
Theorem X20_next_url_on_base (base rest : string) (resp : Response) :
  strings.Contains (base +:+ "/v2") "/v2/" = false ->
  parseLinkHeader (Header_Get (Header resp) "Link") <> "" ->
  nextPageURL (base +:+ "/v2/" +:+ rest) resp
  = base +:+ parseLinkHeader (Header_Get (Header resp) "Link").
Proof. apply nextPageURL_base. Qed.

Lemma X20_next_url_on_base_witness :
  nextPageURL (tagsListURL "https://ghcr.io" "owner/repo")
    {| StatusCode := 200;
       Header := {[ "Link" := nextLink "/v2/owner/repo/tags/list?n=1000&last=v9" ]};
       Body := None |}
  = "https://ghcr.io/v2/owner/repo/tags/list?n=1000&last=v9".
Proof.
  refine (eq_trans
            (X20_next_url_on_base "https://ghcr.io" ("owner/repo" +:+ "/tags/list?n=1000")
               {| StatusCode := 200;
                  Header := {[ "Link" := nextLink "/v2/owner/repo/tags/list?n=1000&last=v9" ]};
                  Body := None |} _ _) _).
  - reflexivity.
  - vm_compute. discriminate.
  - vm_compute. reflexivity.
Defined.

(** X21 (parseImageReference, fetchTagsList, fetchTagsPage): from the image
    to the second page.  For every image whose host is not v2, the tag list
    URL of the parsed reference, answered with a link that names a next
    path, is followed by the parsed registry URL with that path after it:
    scheme and host are kept, the path is the registry's. *)
Theorem X21_second_page_url (image : string) (resp : Response) :
  strings.HasPrefix image "v2/" = false ->
  parseLinkHeader (Header_Get (Header resp) "Link") <> "" ->
  let r := parseImageReference image in
  nextPageURL (tagsListURL (registryURL r) (repository r)) resp
  = registryURL r +:+ parseLinkHeader (Header_Get (Header resp) "Link").
Proof.
  intros Hv Hn r. unfold tagsListURL.
  apply nextPageURL_base; [|exact Hn]. by apply registryURL_no_v2.
Qed.

Lemma X21_second_page_url_witness :
  nextPageURL (tagsListURL "https://registry.example.com:5000" "team/app")
    {| StatusCode := 200;
       Header := {[ "Link" := nextLink "/v2/team/app/tags/list?n=1000&last=v9" ]};
       Body := None |}
  = "https://registry.example.com:5000/v2/team/app/tags/list?n=1000&last=v9".
Proof.
  refine (eq_trans
            (X21_second_page_url "registry.example.com:5000/team/app"
               {| StatusCode := 200;
                  Header := {[ "Link" := nextLink "/v2/team/app/tags/list?n=1000&last=v9" ]};
                  Body := None |} _ _) _).
  - reflexivity.
  - vm_compute. discriminate.
  - vm_compute. reflexivity.
Defined.

(** ** The program on any messages *)

(** What one message can do to the model. *)
Lemma Update_bounds m msg :
  let m' := (tui.Update m msg).1 in
  tui.image m' = tui.image m /\ tui.workers m' = tui.workers m /\
  Z.of_nat (length (tui.matchingTags m')) - Z.of_nat (length (tui.matchingTags m))
  <= tui.current m' - tui.current m <= 1 /\
  (length (tui.matchingTags m) <= length (tui.matchingTags m'))%nat.
Proof.
  destruct msg as [key|tags [e|]|tag digest e| |]; cbn [tui.Update]; cbv zeta.
  - destruct (_ || _); cbn; repeat split; lia.
  - cbn; repeat split; lia.
  - destruct (0 <? _); cbn; repeat split; lia.
  - assert (Hm : exists l, match e with
                           | None => if String.eqb digest (tui.targetDigest m)
                                     then (tui.matchingTags m ++ [tag])%list
                                     else tui.matchingTags m
                           | Some _ => tui.matchingTags m
                           end = (tui.matchingTags m ++ l)%list /\ (length l <= 1)%nat).
    { destruct e.
      - exists []. rewrite app_nil_r. cbn. split; [done|lia].
      - destruct (String.eqb _ _).
        + exists [tag]. cbn. split; [done|lia].
        + exists []. rewrite app_nil_r. cbn. split; [done|lia]. }
    destruct Hm as (l & -> & Hl).
    destruct (tui.total m <=? _); cbn [fst tui.image tui.workers tui.matchingTags
                                       tui.current];
      rewrite length_app; repeat split; lia.
  - cbn; repeat split; lia.
  - cbn; repeat split; lia.
Qed.

Lemma eventLoop_bounds msgs m :
  let m' := tui.eventLoop m msgs in
  tui.image m' = tui.image m /\ tui.targetDigest m' = tui.targetDigest m /\
  tui.workers m' = tui.workers m /\
  Z.of_nat (length (tui.matchingTags m')) - Z.of_nat (length (tui.matchingTags m))
  <= tui.current m' - tui.current m <= Z.of_nat (length msgs).
Proof.
  revert m. induction msgs as [|msg msgs IH]; intros m; cbv zeta.
  - cbn. repeat split; lia.
  - cbn [tui.eventLoop length].
    pose proof (Update_bounds m msg) as (Hi & Hw & Hc & Hl).
    pose proof (Update_targetDigest m msg) as Ht.
    destruct (tui.Update m msg) as [m1 cmd]. cbn [fst] in *.
    assert (Hq : tui.image m1 = tui.image m /\ tui.targetDigest m1 = tui.targetDigest m /\
                 tui.workers m1 = tui.workers m /\
                 Z.of_nat (length (tui.matchingTags m1))
                 - Z.of_nat (length (tui.matchingTags m))
                 <= tui.current m1 - tui.current m <= Z.of_nat (S (length msgs))).
    { repeat split; try done; lia. }
    destruct (IH m1) as (Hi' & Ht' & Hw' & Hc').
    destruct cmd; try exact Hq;
      (split; [congruence|]; split; [congruence|]; split; [congruence|]; lia).
Qed.

(** X22 (Update): whatever messages reach the program, in whatever order and
    number, the model keeps its image, target digest and worker count; a tag
    is among the matching tags only if a check message without error
    carried it with the target digest; and the matching tags are never more
    than the results counted, which are never more than the messages. *)
Theorem X22_program_invariants (image digest : string) (workers : Z) (msgs : list tui.Msg) :
  let m := tui.eventLoop (tui.initialModel image digest workers) msgs in
  tui.image m = image /\ tui.targetDigest m = digest /\ tui.workers m = workers /\
  (forall tag, In tag (tui.matchingTags m) -> In (tui.checkMsg tag digest None) msgs) /\
  Z.of_nat (length (tui.matchingTags m)) <= tui.current m <= Z.of_nat (length msgs).
Proof.
  cbv zeta.
  pose proof (eventLoop_bounds msgs (tui.initialModel image digest workers))
    as (Hi & Ht & Hw & Hc).
  cbn [tui.initialModel tui.image tui.targetDigest tui.workers tui.matchingTags
       tui.current length] in *.
  repeat split; try done; try lia.
  intros tag Hin.
  by destruct (matchingTags_sound msgs (tui.initialModel image digest workers) tag Hin).
Qed.

(** ** From the listing to the program *)

Lemma parseErr_None image : parseErr (parseImageReference image) = None.
Proof.
  unfold parseImageReference.
  destruct (strings.SplitN image slash 2) as [|registry [|repo rest]];
    try reflexivity.
  destruct (String.eqb registry "docker.io"); [reflexivity|].
  destruct (String.eqb registry "ghcr.io"); [reflexivity|].
  destruct (String.eqb registry "quay.io"); reflexivity.
Qed.


(** X24 (fetchTags, Update): a listing that fails ends the program.  When a
    page request, after any number of pages, is answered with a status that
    is neither 200 nor 401, on an answer that the client hands over (no
    redirect that it follows), the command answers with that status as the
    error and no tag; the program then is done with that error, has no
    matching tag and has counted nothing, whatever messages would follow. *)
Theorem X24_listing_failure_ends_program (net : Network) (image digest : string)
    (workers : Z) (pages : list (Response * list string)) (bad : Response) (fuel : nat)
    (later : list tui.Msg) :
  (forall url, parsesURL net url = true) ->
  servesNext net pages ->
  (forall log req, length log = length pages -> respond net log req = inr bad) ->
  StatusCode bad <> StatusOK -> StatusCode bad <> StatusUnauthorized ->
  followed bad = false ->
  (length pages < fuel)%nat ->
  let msg := tui.tagsMsg [] (Some (ErrRegistry (StatusCode bad))) in
  fetchTags net fuel image workers = Some msg /\
  let m := tui.eventLoop (tui.initialModel image digest workers) (msg :: later) in
  tui.done m = true /\ tui.err m = Some (ErrRegistry (StatusCode bad)) /\
  tui.matchingTags m = [] /\ tui.tags m = [] /\ tui.current m = 0 /\
  tui.hasResultsChan m = false.
Proof.
  intros Hu Hserve Hbad H200 H401 Hfol Hf msg. split.
  - unfold fetchTags. cbv zeta. rewrite parseErr_None.
    destruct (fetchTagsList_failing_page net
                (registryURL (parseImageReference image))
                (repository (parseImageReference image))
                {| client := NewRegistryClient workers; sent := [] |}
                pages bad fuel Hu eq_refl Hserve Hbad H200 H401 Hfol Hf)
      as (st' & -> & _).
    reflexivity.
  - cbv zeta. cbn. done.
Qed.


Lemma X24_listing_failure_ends_program_witness :
  fetchTags brokenRegistry 5 "ghcr.io/owner/repo" 10
  = Some (tui.tagsMsg [] (Some (ErrRegistry 500))).
Proof.
  apply (X24_listing_failure_ends_program brokenRegistry "ghcr.io/owner/repo" "sha256:abc" 10
           [({| StatusCode := 200;
                Header := {[ "Link" := "</v2/repo/tags/list?n=2&last=b>; " +:+ relNext ]};
                Body := jsonTags ["a"; "b"] |}, ["a"; "b"])]
           {| StatusCode := 500; Header := ∅; Body := None |} 5 []).
  - done.
  - intros [|k] resp tags; cbn; intros [= <- <-].
    split; [by intros [|? ?] req|]. repeat split; by vm_compute.
  - by intros [|? [|? ?]] req.
  - done.
  - done.
  - reflexivity.
  - cbn. lia.
Defined.
